(** * BusTub buffer pool: clock replacer and buffer pool manager

    A shallow embedding of [src/buffer/clock_replacer.cpp] and
    [src/buffer/buffer_pool_manager.cpp], followed by the properties the
    specification states about them.

    Conventions of the embedding.
    - [frame_id_t], [page_id_t] and [int] are modelled as [Z].  The only
      arithmetic the code performs on them is [++pin_count_] and
      [--pin_count_].  The decrement is guarded by [pin_count_ > 0]; the
      increment of a pin count that is [INT_MAX] is a signed overflow,
      which is undefined behaviour in C++.
    - An operation returns [None] where the C++ program has no defined
      result: a failed [assert], an access to [pages_] out of range, the
      use of a list iterator that designates no node, a signed overflow.
    - Every public operation of the buffer pool manager holds [latch_] from
      its first statement to its last, and the replacer is only reached
      through the manager; the embedding is therefore sequential and the
      latches do not appear. *)

From Stdlib Require Import ZArith Lia.
From stdpp Require Import base option list list_numbers gmap.

Local Open Scope Z_scope.

Abbreviation frame_id_t := Z.
Abbreviation page_id_t := Z.

(** The largest value of an [int], 32 bits wide on the platforms BusTub is
    built for. *)
Definition INT_MAX : Z := 2147483647.

(** ** Constants of [common/config.h] *)

(** Modelled from the spec: [common/config.h] is not part of the sources at
    hand.  Section 6 names two constants, [PAGE_SIZE], the size of a page
    buffer, and [INVALID_PAGE_ID], the reserved page id of a frame that
    holds no page; they are parameters of the development. *)
Class Config := {
  INVALID_PAGE_ID : page_id_t;
  PAGE_SIZE : nat
}.

(** ** The disk manager *)

(** One call of the buffer pool manager into the disk manager. *)
Inductive DiskCall :=
  | CallReadPage (page_id : page_id_t)
  | CallWritePage (page_id : page_id_t) (data : list Byte.byte)
  | CallAllocatePage (result : page_id_t)
  | CallDeallocatePage (page_id : page_id_t).

(** The disk manager is an external collaborator, used through the four
    functions [ReadPage], [WritePage], [AllocatePage] and [DeallocatePage].
    Its state is represented by the history of the calls it has received
    (most recent call first); what it answers is a function of that history.
    Any deterministic disk manager is an instance. *)
Class DiskManager := {
  ReadPage_result : list DiskCall → page_id_t → list Byte.byte;
  AllocatePage_result : list DiskCall → page_id_t
}.

(** ** The clock replacer *)

Module ClockReplacer.

(** [struct FrameState]; its constructor sets [reference_bit] to [true]. *)
Record FrameState := {
  frame_id : frame_id_t;
  reference_bit : bool
}.

Definition FrameState_new (id : frame_id_t) : FrameState :=
  {| frame_id := id; reference_bit := true |}.

(** A [std::list<FrameState>] is a sequence of nodes; an iterator designates
    a node and stays valid while that node is in the list, whatever happens
    to the other nodes.  A node is therefore modelled with an identity (its
    address), and an iterator is that identity. *)
Abbreviation iterator := nat (only parsing).
Abbreviation node := (iterator * FrameState)%type (only parsing).

(** The members of [class ClockReplacer].  [clock_hand_ = None] stands for
    [frame_list_.end()]. *)
Record t := {
  frame_map_ : gmap Z iterator;
  frame_list_ : list node;
  clock_hand_ : option iterator
}.

(** *** [std::list] primitives *)

(** [l.begin()]; [None] is [l.end()]. *)
Definition begin (l : list node) : option iterator := fst <$> head l.

(** [*it]: the payload of the node [it] designates. *)
Fixpoint deref (it : iterator) (l : list node) : option FrameState :=
  match l with
  | [] => None
  | (a, fs) :: tl => if decide (a = it) then Some fs else deref it tl
  end.

(** [++it]: [Some None] is [l.end()], [None] is an iterator into no node. *)
Fixpoint incr (it : iterator) (l : list node) : option (option iterator) :=
  match l with
  | [] => None
  | (a, _) :: tl => if decide (a = it) then Some (begin tl) else incr it tl
  end.

(** [l.erase(it)]. *)
Fixpoint erase (it : iterator) (l : list node) : option (list node) :=
  match l with
  | [] => None
  | (a, fs) :: tl =>
      if decide (a = it) then Some tl else cons (a, fs) <$> erase it tl
  end.

(** [it->reference_bit = b]. *)
Fixpoint set_reference_bit (it : iterator) (b : bool) (l : list node)
  : list node :=
  match l with
  | [] => []
  | (a, fs) :: tl =>
      if decide (a = it)
      then (a, {| frame_id := frame_id fs; reference_bit := b |}) :: tl
      else (a, fs) :: set_reference_bit it b tl
  end.

(** The identity of the node [push_back] allocates: one that no node of the
    list has. *)
Definition fresh (l : list node) : iterator := S (max_list (l.*1)).

Definition push_back (fs : FrameState) (l : list node) : list node :=
  l ++ [(fresh l, fs)].

(** *** Member functions *)

(** The constructor: [num_pages] is not used. *)
Definition new (num_pages : nat) : t :=
  {| frame_map_ := ∅; frame_list_ := []; clock_hand_ := None |}.

Definition NextClockHand (st : t) : option t :=
  match clock_hand_ st with
  | None => Some st
  | Some h =>
      match incr h (frame_list_ st) with
      | None => None
      | Some (Some h') =>
          Some {| frame_map_ := frame_map_ st;
                  frame_list_ := frame_list_ st;
                  clock_hand_ := Some h' |}
      | Some None =>
          Some {| frame_map_ := frame_map_ st;
                  frame_list_ := frame_list_ st;
                  clock_hand_ := begin (frame_list_ st) |}
      end
  end.

Definition RemoveFrame (fid : frame_id_t) (st : t) : option t :=
  match frame_map_ st !! fid with
  | None => Some st
  | Some it =>
      st1 ← (if decide (Some it = clock_hand_ st)
             then NextClockHand st else Some st);
      l' ← erase it (frame_list_ st1);
      Some {| frame_map_ := delete fid (frame_map_ st1);
              frame_list_ := l';
              clock_hand_ := if decide (length l' = 0%nat)
                             then None else clock_hand_ st1 |}
  end.

Definition Pin (fid : frame_id_t) (st : t) : option t := RemoveFrame fid st.

(** [Unpin].  The insertion into [frame_map_] is written inside an [assert];
    the embedding is of a build in which assertions are compiled in.  The
    key was looked up and not found, so the insertion takes place and the
    assertion holds. *)
Definition Unpin (fid : frame_id_t) (st : t) : t :=
  match frame_map_ st !! fid with
  | Some _ => st
  | None =>
      let it := fresh (frame_list_ st) in
      let l' := push_back (FrameState_new fid) (frame_list_ st) in
      {| frame_map_ := <[fid := it]> (frame_map_ st);
         frame_list_ := l';
         clock_hand_ := if decide (length l' = 1%nat)
                        then begin l' else clock_hand_ st |}
  end.

Definition Size (st : t) : nat := length (frame_list_ st).

(** The loop of [Victim]:
    [while (clock_hand_->reference_bit) { clock_hand_->reference_bit = false;
    NextClockHand(); }].  [fuel] bounds the number of times the loop
    condition is evaluated; [None] is returned when it is exhausted, and
    when the hand designates no node. *)
Fixpoint sweep (fuel : nat) (st : t) : option t :=
  match fuel with
  | O => None
  | S fuel' =>
      h ← clock_hand_ st;
      fs ← deref h (frame_list_ st);
      if reference_bit fs then
        st' ← NextClockHand
                {| frame_map_ := frame_map_ st;
                   frame_list_ := set_reference_bit h false (frame_list_ st);
                   clock_hand_ := clock_hand_ st |};
        sweep fuel' st'
      else Some st
  end.

(** [Victim(frame_id_t *frame_id)], with the value [*frame_id] has on entry
    as an argument and the value it has on return in the result. *)
Definition Victim_fuel (fuel : nat) (out : frame_id_t) (st : t)
  : option (bool * frame_id_t * t) :=
  match clock_hand_ st with
  | None => Some (false, out, st)
  | Some _ =>
      st1 ← sweep fuel st;
      h ← clock_hand_ st1;
      fs ← deref h (frame_list_ st1);
      st2 ← RemoveFrame (frame_id fs) st1;
      Some (true, frame_id fs, st2)
  end.

(** Each turn of the loop clears one reference bit that was set, so the
    condition is evaluated at most [Size + 1] times ([sweep_fuel_enough]
    below: more fuel never changes the result).  [Victim] is the function
    with that much fuel. *)
Definition Victim (out : frame_id_t) (st : t)
  : option (bool * frame_id_t * t) :=
  Victim_fuel (S (Size st)) out st.

(** *** Well-formed replacer states *)

(** The nodes of [l] with their reference bits cleared. *)
Definition clear_bit (nd : node) : node :=
  (nd.1, {| frame_id := frame_id nd.2; reference_bit := false |}).

Definition clear_bits (l : list node) : list node := clear_bit <$> l.

Definition referenced (nd : node) : Prop := reference_bit nd.2 = true.

(** What a sweep leaves of a list: the same nodes for the same frames, in
    the same order; only reference bits may differ. *)
Definition shape (l : list node) : list (iterator * frame_id_t) :=
  (λ nd : node, (nd.1, frame_id nd.2)) <$> l.

(** The number of reference bits that are set. *)
Definition set_bits (l : list node) : nat :=
  length (filter (λ nd : node, reference_bit nd.2 = true) l).

Definition ids (l : list node) : list iterator := l.*1.

Definition tracked (st : t) : list frame_id_t :=
  frame_id <$> (frame_list_ st).*2.

(** The clock-hand invariants of section 4.2: nodes are distinct, the index
    is in lockstep with the list, and the hand designates a node exactly
    when the list is not empty. *)
Record wf (st : t) : Prop := {
  wf_ids : NoDup (ids (frame_list_ st));
  wf_map : ∀ fid it,
    frame_map_ st !! fid = Some it ↔ (it, fid) ∈ shape (frame_list_ st);
  wf_hand_none : clock_hand_ st = None ↔ frame_list_ st = [];
  wf_hand_some : ∀ h, clock_hand_ st = Some h → h ∈ ids (frame_list_ st)
}.

(** The calls a client can make, and the states they lead to. *)
Inductive call :=
  | CallVictim
  | CallPin (fid : frame_id_t)
  | CallUnpin (fid : frame_id_t).

Definition do_call (c : call) (st : t) : option t :=
  match c with
  | CallVictim => snd <$> Victim (-1) st
  | CallPin fid => Pin fid st
  | CallUnpin fid => Some (Unpin fid st)
  end.

Fixpoint do_calls (cs : list call) (st : t) : option t :=
  match cs with
  | [] => Some st
  | c :: cs' => st' ← do_call c st; do_calls cs' st'
  end.

(** [k] calls of [Victim] in a row, stopping at the first that returns
    false: the frames handed out, in order, and the state left. *)
Fixpoint Victims (k : nat) (st : t) : option (list frame_id_t * t) :=
  match k with
  | O => Some ([], st)
  | S k' =>
      '(b, f, st1) ← Victim (-1) st;
      if b : bool then
        '(fs, st2) ← Victims k' st1; Some (f :: fs, st2)
      else Some ([], st1)
  end.

(** The descriptor the sweep stops on, computed from the list read from the
    hand onwards and around: the first one whose reference bit is not set,
    and the one under the hand when every bit is set. *)
Fixpoint find_unreferenced (rot : list node) : option node :=
  match rot with
  | [] => None
  | nd :: tl => if reference_bit nd.2 then find_unreferenced tl else Some nd
  end.

Definition first_unreferenced (rot : list node) : option node :=
  match find_unreferenced rot with
  | Some nd => Some nd
  | None => head rot
  end.

End ClockReplacer.

(** ** The buffer pool manager *)

Module BufferPoolManager.

Section WithEnvironment.
Context `{Config} `{DiskManager}.

(** Modelled from the spec: [storage/page/page.h] is not part of the sources
    at hand.  Section 3 gives a frame its attributes, a page id, a buffer of
    [PAGE_SIZE] bytes, a pin count and a dirty flag, and section 4.1 their
    initial values: no page, pin count zero, not dirty.  [ResetMemory]
    zeroes the buffer. *)
Record Page := {
  data_ : list Byte.byte;
  page_id_ : page_id_t;
  pin_count_ : Z;
  is_dirty_ : bool
}.

Definition ResetMemory : list Byte.byte := replicate PAGE_SIZE Byte.x00.

Definition Page_new : Page :=
  {| data_ := ResetMemory; page_id_ := INVALID_PAGE_ID;
     pin_count_ := 0; is_dirty_ := false |}.

(** The members of [class BufferPoolManager].  [disk_manager_] is the
    history of the calls made to the disk manager, most recent first.
    [log_manager_] is stored and never used, and is left out. *)
Record t := {
  pool_size_ : nat;
  pages_ : list Page;
  replacer_ : ClockReplacer.t;
  free_list_ : list frame_id_t;
  page_table_ : gmap Z frame_id_t;
  disk_manager_ : list DiskCall
}.

Definition set_pages (ps : list Page) (s : t) : t :=
  {| pool_size_ := pool_size_ s; pages_ := ps; replacer_ := replacer_ s;
     free_list_ := free_list_ s; page_table_ := page_table_ s;
     disk_manager_ := disk_manager_ s |}.

Definition set_replacer (r : ClockReplacer.t) (s : t) : t :=
  {| pool_size_ := pool_size_ s; pages_ := pages_ s; replacer_ := r;
     free_list_ := free_list_ s; page_table_ := page_table_ s;
     disk_manager_ := disk_manager_ s |}.

Definition set_free_list (fl : list frame_id_t) (s : t) : t :=
  {| pool_size_ := pool_size_ s; pages_ := pages_ s;
     replacer_ := replacer_ s; free_list_ := fl;
     page_table_ := page_table_ s; disk_manager_ := disk_manager_ s |}.

Definition set_page_table (pt : gmap Z frame_id_t) (s : t) : t :=
  {| pool_size_ := pool_size_ s; pages_ := pages_ s;
     replacer_ := replacer_ s; free_list_ := free_list_ s;
     page_table_ := pt; disk_manager_ := disk_manager_ s |}.

Definition disk_call (c : DiskCall) (s : t) : t :=
  {| pool_size_ := pool_size_ s; pages_ := pages_ s;
     replacer_ := replacer_ s; free_list_ := free_list_ s;
     page_table_ := page_table_ s; disk_manager_ := c :: disk_manager_ s |}.

(** [pages_[f]], undefined out of range. *)
Definition page_at (f : frame_id_t) (s : t) : option Page :=
  if decide (0 ≤ f) then pages_ s !! Z.to_nat f else None.

(** Assignment to the members of [pages_[f]], for [f] in range. *)
Definition set_page (f : frame_id_t) (pg : Page) (s : t) : t :=
  set_pages (<[Z.to_nat f := pg]> (pages_ s)) s.

(** The constructor: every frame is in the free list. *)
Definition new (pool_size : nat) : t :=
  {| pool_size_ := pool_size;
     pages_ := replicate pool_size Page_new;
     replacer_ := ClockReplacer.new pool_size;
     free_list_ := Z.of_nat <$> seq 0 pool_size;
     page_table_ := ∅;
     disk_manager_ := [] |}.

(** Modelled from the spec: the declaration of [ResetPage], with the default
    value of [new_pin_count] that [DeletePageImpl] relies on, is in
    [buffer/buffer_pool_manager.h], which is not part of the sources at
    hand.  A frame that holds no page has pin count zero (section 4.1). *)
Definition ResetPage_default_pin_count : Z := 0.

Definition ResetPage (f : frame_id_t) (new_page_id : page_id_t)
    (new_pin_count : Z) (s : t) : option t :=
  _ ← page_at f s;
  Some (set_page f {| data_ := ResetMemory; page_id_ := new_page_id;
                      pin_count_ := new_pin_count; is_dirty_ := false |} s).

Definition FlushPageLocked (page_id : page_id_t) (s : t) : option (bool * t) :=
  match page_table_ s !! page_id with
  | None => Some (false, s)
  | Some f =>
      page ← page_at f s;
      if negb (is_dirty_ page) then Some (true, s)
      else
        let s1 := disk_call (CallWritePage page_id (data_ page)) s in
        Some (true,
              set_page f {| data_ := data_ page; page_id_ := page_id_ page;
                            pin_count_ := pin_count_ page;
                            is_dirty_ := false |} s1)
  end.

Definition FlushPageImpl (page_id : page_id_t) (s : t) : option (bool * t) :=
  FlushPageLocked page_id s.

Definition GetNextAvailableFrame (s : t) : option (frame_id_t * t) :=
  let frame_id := -1 in
  match free_list_ s with
  | front :: rest => Some (front, set_free_list rest s)
  | [] =>
      '(_, frame_id, r) ← ClockReplacer.Victim frame_id (replacer_ s);
      Some (frame_id, set_replacer r s)
  end.

Definition MaybeEvictPageFromFrame (frame_id : frame_id_t) (s : t)
  : option (bool * t) :=
  if decide (frame_id < Z.of_nat (pool_size_ s)) then
    if decide (frame_id >= 0) then
      page ← page_at frame_id s;
      if decide (page_id_ page ≠ INVALID_PAGE_ID) then
        '(_, s1) ← FlushPageLocked (page_id_ page) s;
        page1 ← page_at frame_id s1;
        Some (true, set_page_table (delete (page_id_ page1) (page_table_ s1)) s1)
      else Some (false, s)
    else None
  else None.

(** [FetchPageImpl]; the [Page *] it returns is modelled by the index of the
    frame in [pages_], [None] being [nullptr].  [++page->pin_count_] has no
    defined result when the pin count is [INT_MAX]. *)
Definition FetchPageImpl (page_id : page_id_t) (s : t)
  : option (option frame_id_t * t) :=
  match page_table_ s !! page_id with
  | Some f =>
      page ← page_at f s;
      if decide (pin_count_ page < INT_MAX) then
        let s1 := set_page f {| data_ := data_ page; page_id_ := page_id_ page;
                                pin_count_ := pin_count_ page + 1;
                                is_dirty_ := is_dirty_ page |} s in
        r ← ClockReplacer.Pin f (replacer_ s1);
        Some (Some f, set_replacer r s1)
      else None
  | None =>
      '(frame_id, s1) ← GetNextAvailableFrame s;
      if decide (frame_id = -1) then Some (None, s1)
      else
        '(_, s2) ← MaybeEvictPageFromFrame frame_id s1;
        let s3 := set_page_table (<[page_id := frame_id]> (page_table_ s2)) s2 in
        s4 ← ResetPage frame_id page_id 1 s3;
        page ← page_at frame_id s4;
        let buf := ReadPage_result (disk_manager_ s4) page_id in
        let s5 := disk_call (CallReadPage page_id) s4 in
        let s6 := set_page frame_id
                    {| data_ := buf; page_id_ := page_id_ page;
                       pin_count_ := pin_count_ page;
                       is_dirty_ := is_dirty_ page |} s5 in
        r ← ClockReplacer.Pin frame_id (replacer_ s6);
        Some (Some frame_id, set_replacer r s6)
  end.

Definition UnpinPageImpl (page_id : page_id_t) (is_dirty : bool) (s : t)
  : option (bool * t) :=
  match page_table_ s !! page_id with
  | None => Some (true, s)
  | Some f =>
      page ← page_at f s;
      if decide (pin_count_ page ≤ 0) then Some (false, s)
      else
        let pin_count := pin_count_ page - 1 in
        let s1 := set_page f {| data_ := data_ page; page_id_ := page_id_ page;
                                pin_count_ := pin_count;
                                is_dirty_ := is_dirty_ page || is_dirty |} s in
        if decide (pin_count = 0)
        then Some (true, set_replacer (ClockReplacer.Unpin f (replacer_ s1)) s1)
        else Some (true, s1)
  end.

(** [NewPageImpl(page_id_t *page_id)]: the result carries the value stored
    through [page_id], which is written before the frame is looked for. *)
Definition NewPageImpl (s : t) : option (option frame_id_t * page_id_t * t) :=
  let page_id := AllocatePage_result (disk_manager_ s) in
  let s0 := disk_call (CallAllocatePage page_id) s in
  '(frame_id, s1) ← GetNextAvailableFrame s0;
  if decide (frame_id = -1) then Some (None, page_id, s1)
  else
    '(_, s2) ← MaybeEvictPageFromFrame frame_id s1;
    s3 ← ResetPage frame_id page_id 1 s2;
    Some (Some frame_id, page_id,
          set_page_table (<[page_id := frame_id]> (page_table_ s3)) s3).

Definition DeletePageImpl (page_id : page_id_t) (s : t) : option (bool * t) :=
  let s0 := disk_call (CallDeallocatePage page_id) s in
  match page_table_ s0 !! page_id with
  | None => Some (true, s0)
  | Some f =>
      page ← page_at f s0;
      let is_pinned := bool_decide (pin_count_ page ≠ 0) in
      if is_pinned then Some (false, s0)
      else
        let s1 := set_free_list (free_list_ s0 ++ [f]) s0 in
        let s2 := set_page_table (delete page_id (page_table_ s1)) s1 in
        s3 ← ResetPage f INVALID_PAGE_ID ResetPage_default_pin_count s2;
        Some (false, s3)
  end.

(** [FlushAllPagesImpl] walks [page_table_], an [unordered_map] whose
    iteration order is unspecified; the order of [map_to_list] is taken.
    [FlushPageLocked] leaves [page_table_] as it is, so the entries walked
    are those present on entry. *)
Fixpoint FlushPages (page_ids : list page_id_t) (s : t) : option t :=
  match page_ids with
  | [] => Some s
  | page_id :: rest =>
      '(_, s1) ← FlushPageLocked page_id s; FlushPages rest s1
  end.

Definition FlushAllPagesImpl (s : t) : option t :=
  FlushPages (map_to_list (page_table_ s)).*1 s.

(** *** Sequences of public operations *)

Inductive op :=
  | FetchPage (page_id : page_id_t)
  | NewPage
  | UnpinPage (page_id : page_id_t) (is_dirty : bool)
  | FlushPage (page_id : page_id_t)
  | DeletePage (page_id : page_id_t)
  | FlushAllPages.

Definition step (o : op) (s : t) : option t :=
  match o with
  | FetchPage page_id => snd <$> FetchPageImpl page_id s
  | NewPage => snd <$> NewPageImpl s
  | UnpinPage page_id is_dirty => snd <$> UnpinPageImpl page_id is_dirty s
  | FlushPage page_id => snd <$> FlushPageImpl page_id s
  | DeletePage page_id => snd <$> DeletePageImpl page_id s
  | FlushAllPages => FlushAllPagesImpl s
  end.

Fixpoint run (os : list op) (s : t) : option t :=
  match os with
  | [] => Some s
  | o :: os' => s' ← step o s; run os' s'
  end.

(** The states reachable from a freshly constructed manager. *)
Definition reachable (s : t) : Prop :=
  ∃ pool_size os, run os (new pool_size) = Some s.

(** *** The invariant that keeps the operations defined *)

Definition in_pool (s : t) (f : frame_id_t) : Prop :=
  0 ≤ f < Z.of_nat (pool_size_ s).

Record inv (s : t) : Prop := {
  inv_pages : length (pages_ s) = pool_size_ s;
  inv_free : ∀ f, f ∈ free_list_ s → in_pool s f;
  inv_table : ∀ p f, page_table_ s !! p = Some f → in_pool s f;
  inv_tracked : ∀ f, f ∈ ClockReplacer.tracked (replacer_ s) → in_pool s f;
  inv_replacer : ClockReplacer.wf (replacer_ s);
  inv_pin : ∀ pg, pg ∈ pages_ s → 0 ≤ pin_count_ pg
}.

(** [FetchPage] of a resident page increments its pin count; the operation
    [o] has room to do so in [s]. *)
Definition pin_room (o : op) (s : t) : Prop :=
  match o with
  | FetchPage page_id =>
      ∀ f pg, page_table_ s !! page_id = Some f → page_at f s = Some pg →
              pin_count_ pg < INT_MAX
  | _ => True
  end.

(** No pin count in [s] exceeds [k]. *)
Definition pins_le (k : Z) (s : t) : Prop :=
  ∀ pg, pg ∈ pages_ s → pin_count_ pg ≤ k.

(** *** Flushes *)

(** The frame [pg] once [FlushPageLocked] has written it out. *)
Definition clean (pg : Page) : Page :=
  {| data_ := data_ pg; page_id_ := page_id_ pg;
     pin_count_ := pin_count_ pg; is_dirty_ := false |}.

(** From [s] to [s'] the disk manager has only received further calls. *)
Definition extends (s s' : t) : Prop :=
  ∃ calls, disk_manager_ s' = calls ++ disk_manager_ s.

(** From [s] to [s'] the disk manager was asked to write the buffer of
    [pg], and [pg'] is [pg] marked clean. *)
Definition flushed (s s' : t) (pg pg' : Page) : Prop :=
  pg' = clean pg ∧
  ∃ p calls, disk_manager_ s' = calls ++ disk_manager_ s ∧
             CallWritePage p (data_ pg) ∈ calls.


(** *** Tracking of unpinned frames *)


(** *** The frame invariant of section 3 *)

Definition resident (s : t) (f : frame_id_t) : Prop :=
  ∃ p, page_table_ s !! p = Some f.

(** Every frame is either free or resident, never both, and the replacer
    tracks exactly the resident frames nobody pins. *)
Definition frame_partition (s : t) : Prop :=
  ∀ f, in_pool s f →
    (f ∈ free_list_ s ∨ resident s f) ∧
    ¬ (f ∈ free_list_ s ∧ resident s f) ∧
    (f ∈ ClockReplacer.tracked (replacer_ s) ↔
     resident s f ∧ ∃ pg, page_at f s = Some pg ∧ pin_count_ pg = 0).

End WithEnvironment.

End BufferPoolManager.

(** ** A concrete environment, for running the model *)

(** The values [common/config.h] gives the constants in BusTub. *)
Definition bustub_config : Config :=
  {| INVALID_PAGE_ID := -1; PAGE_SIZE := 4096 |}.

(** A disk manager that hands out page ids in sequence from zero and reads
    back what was last written to a page, zeroes when nothing was. *)
Fixpoint last_write (page_id : page_id_t) (calls : list DiskCall)
  : list Byte.byte :=
  match calls with
  | [] => replicate 4096 Byte.x00
  | CallWritePage p d :: rest =>
      if decide (p = page_id) then d else last_write page_id rest
  | _ :: rest => last_write page_id rest
  end.

Fixpoint allocations (calls : list DiskCall) : Z :=
  match calls with
  | [] => 0
  | CallAllocatePage _ :: rest => 1 + allocations rest
  | _ :: rest => allocations rest
  end.

Definition counting_disk : DiskManager :=
  {| ReadPage_result := λ calls page_id, last_write page_id calls;
     AllocatePage_result := allocations |}.

(** * Properties of the clock replacer *)

Section ListPrimitives.
Import ClockReplacer.
Implicit Types (l A B : list node) (it h : iterator) (fs : FrameState).

Lemma ids_app A B : ids (A ++ B) = ids A ++ ids B.
Proof. unfold ids. apply fmap_app. Qed.

Lemma ids_cons it fs l : ids ((it, fs) :: l) = it :: ids l.
Proof. reflexivity. Qed.

Lemma ids_cons_nd (nd : nat * FrameState) l : ids (nd :: l) = nd.1 :: ids l.
Proof. reflexivity. Qed.

Lemma deref_skip A it l : it ∉ ids A → deref it (A ++ l) = deref it l.
Proof.
  induction A as [|[a fa] A IH]; intros Hn; simpl; [done|].
  rewrite ids_cons, not_elem_of_cons in Hn. destruct Hn as [Hne Hn].
  case_decide; [congruence|]. by apply IH.
Qed.

Lemma deref_here it fs l : deref it ((it, fs) :: l) = Some fs.
Proof. simpl. by case_decide. Qed.

Lemma incr_skip A it l : it ∉ ids A → incr it (A ++ l) = incr it l.
Proof.
  induction A as [|[a fa] A IH]; intros Hn; simpl; [done|].
  rewrite ids_cons, not_elem_of_cons in Hn. destruct Hn as [Hne Hn].
  case_decide; [congruence|]. by apply IH.
Qed.

Lemma incr_here it fs l : incr it ((it, fs) :: l) = Some (begin l).
Proof. simpl. by case_decide. Qed.

Lemma erase_skip A it l :
  it ∉ ids A → erase it (A ++ l) = (A ++.) <$> erase it l.
Proof.
  induction A as [|[a fa] A IH]; intros Hn; simpl.
  - by destruct (erase it l).
  - rewrite ids_cons, not_elem_of_cons in Hn. destruct Hn as [Hne Hn].
    case_decide; [congruence|]. rewrite IH by done.
    by destruct (erase it l).
Qed.

Lemma erase_here it fs l : erase it ((it, fs) :: l) = Some l.
Proof. simpl. by case_decide. Qed.

Lemma set_reference_bit_skip A it b l :
  it ∉ ids A → set_reference_bit it b (A ++ l) = A ++ set_reference_bit it b l.
Proof.
  induction A as [|[a fa] A IH]; intros Hn; simpl; [done|].
  rewrite ids_cons, not_elem_of_cons in Hn. destruct Hn as [Hne Hn].
  case_decide; [congruence|]. by rewrite IH.
Qed.

Lemma set_reference_bit_here it fs b l :
  set_reference_bit it b ((it, fs) :: l)
  = (it, {| frame_id := frame_id fs; reference_bit := b |}) :: l.
Proof. simpl. by case_decide. Qed.

Lemma ids_split it l :
  it ∈ ids l → ∃ A fs B, l = A ++ (it, fs) :: B ∧ it ∉ ids A.
Proof.
  induction l as [|[a fa] l IH]; intros Hin.
  - by apply elem_of_nil in Hin.
  - destruct (decide (a = it)) as [->|Hne].
    + exists [], fa, l. split; [done|]. apply not_elem_of_nil.
    + rewrite ids_cons, elem_of_cons in Hin.
      destruct Hin as [Heq|Hin]; [congruence|].
      destruct (IH Hin) as (A & fs & B & -> & HnA).
      exists ((a, fa) :: A), fs, B. split; [done|].
      rewrite ids_cons, not_elem_of_cons. split; [congruence|done].
Qed.

Lemma NoDup_ids_app_l A B : NoDup (ids (A ++ B)) → ∀ it, it ∈ ids B → it ∉ ids A.
Proof.
  rewrite ids_app. intros Hnd it HB HA.
  apply NoDup_app in Hnd as (_ & Hd & _). by apply (Hd it).
Qed.

Lemma shape_ids l1 l2 : shape l1 = shape l2 → ids l1 = ids l2.
Proof.
  intros Hs. unfold ids.
  assert (Hf : ∀ l, l.*1 = (shape l).*1).
  { intros l. unfold shape. rewrite <- list_fmap_compose. done. }
  by rewrite !Hf, Hs.
Qed.

Lemma shape_tracked l1 l2 :
  shape l1 = shape l2 → frame_id <$> l1.*2 = frame_id <$> l2.*2.
Proof.
  intros Hs.
  assert (Hf : ∀ l : list node, frame_id <$> l.*2 = (shape l).*2).
  { intros l. unfold shape. rewrite <- !list_fmap_compose. done. }
  by rewrite !Hf, Hs.
Qed.

Lemma shape_app A B : shape (A ++ B) = shape A ++ shape B.
Proof. unfold shape. apply fmap_app. Qed.

Lemma shape_clear_bits l : shape (clear_bits l) = shape l.
Proof.
  unfold shape, clear_bits. rewrite <- list_fmap_compose.
  apply list_fmap_ext. by intros ? [??].
Qed.

Lemma shape_set_reference_bit it b l : shape (set_reference_bit it b l) = shape l.
Proof.
  induction l as [|[a fa] l IH]; simpl; [done|].
  case_decide; simpl; [done|]. unfold shape in *. simpl. by rewrite IH.
Qed.

Lemma ids_clear_bits l : ids (clear_bits l) = ids l.
Proof. apply shape_ids, shape_clear_bits. Qed.

Lemma length_shape l1 l2 : shape l1 = shape l2 → length l1 = length l2.
Proof.
  intros Hs. apply (f_equal length) in Hs. unfold shape in Hs.
  by rewrite !length_fmap in Hs.
Qed.

End ListPrimitives.

Section Sweep.
Import ClockReplacer.
Implicit Types (l A B T X : list node) (it h : iterator) (fs : FrameState).

Lemma sweep_stop fuel st h fs :
  clock_hand_ st = Some h → deref h (frame_list_ st) = Some fs →
  reference_bit fs = false → sweep (S fuel) st = Some st.
Proof. intros Hh Hd Hb. simpl. rewrite Hh. simpl. rewrite Hd. simpl. by rewrite Hb. Qed.

Lemma begin_app_cons A nd B : begin ((nd :: A) ++ B) = Some nd.1.
Proof. done. Qed.

Lemma sweep_pass m T : ∀ A X fuel,
  NoDup (ids (A ++ T ++ X)) →
  Forall referenced T →
  (T = [] → X ≠ []) →
  sweep (length T + fuel)
    {| frame_map_ := m; frame_list_ := A ++ T ++ X;
       clock_hand_ := begin (T ++ X) |}
  = sweep fuel
      {| frame_map_ := m; frame_list_ := A ++ clear_bits T ++ X;
         clock_hand_ := match X with
                        | [] => begin (A ++ clear_bits T)
                        | x :: _ => Some x.1
                        end |}.
Proof.
  induction T as [|[a fa] T IH]; intros A X fuel Hnd Hall Hne.
  - destruct X as [|x X]; [by destruct Hne|]. done.
  - apply Forall_cons in Hall as [Ha Hall]. unfold referenced in Ha. simpl in Ha.
    assert (HaA : a ∉ ids A).
    { apply (NoDup_ids_app_l _ _ Hnd). rewrite ids_app, ids_cons. set_solver. }
    change (length ((a, fa) :: T) + fuel)%nat with (S (length T + fuel)).
    cbn [sweep]. cbn [clock_hand_ frame_list_ frame_map_].
    change (begin (((a, fa) :: T) ++ X)) with (Some a). cbn [mbind option_bind].
    rewrite deref_skip by done.
    change (((a, fa) :: T) ++ X) with ((a, fa) :: (T ++ X)).
    rewrite deref_here. cbn [mbind option_bind]. rewrite Ha.
    rewrite set_reference_bit_skip, set_reference_bit_here by done.
    unfold NextClockHand. cbn [clock_hand_ frame_list_ frame_map_].
    rewrite incr_skip, incr_here by done.
    set (a' := (a, {| frame_id := frame_id fa; reference_bit := false |})).
    assert (Hnd' : NoDup (ids ((A ++ [a']) ++ T ++ X))).
    { rewrite <- app_assoc. rewrite !ids_app in *. simpl in *. done. }
    destruct (begin (T ++ X)) as [y|] eqn:Hb; cbn [mbind option_bind].
    + assert (Hne' : T = [] → X ≠ []).
      { intros -> ->. done. }
      specialize (IH (A ++ [a']) X fuel Hnd' Hall Hne').
      rewrite <- !app_assoc in IH. simpl in IH. rewrite Hb in IH.
      etrans; [exact IH|]. reflexivity.
    + destruct T; [|done]. destruct X; [|done]. reflexivity.
Qed.


Lemma referenced_split l :
  Forall referenced l ∨
  ∃ T v R, l = T ++ v :: R ∧ Forall referenced T ∧ reference_bit v.2 = false.
Proof.
  induction l as [|nd l IH]; [by left|].
  destruct (reference_bit nd.2) eqn:Hb.
  - destruct IH as [Hall|(T & v & R & -> & Hall & Hv)].
    + left. by constructor.
    + right. exists (nd :: T), v, R. split; [done|]. split; [|done].
      by constructor.
  - right. exists [], nd, l. by repeat split.
Qed.

Lemma find_unreferenced_skip T l :
  Forall referenced T → find_unreferenced (T ++ l) = find_unreferenced l.
Proof.
  induction 1 as [|nd T Hnd _ IH]; [done|]. simpl.
  unfold referenced in Hnd. by rewrite Hnd.
Qed.

Lemma find_unreferenced_all l : Forall referenced l → find_unreferenced l = None.
Proof.
  intros Hall. rewrite <- (app_nil_r l). by rewrite find_unreferenced_skip.
Qed.

Lemma first_unreferenced_found T v R :
  Forall referenced T → reference_bit v.2 = false →
  first_unreferenced (T ++ v :: R) = Some v.
Proof.
  intros Hall Hv. unfold first_unreferenced.
  rewrite find_unreferenced_skip by done. simpl. by rewrite Hv.
Qed.

Lemma first_unreferenced_all l :
  Forall referenced l → first_unreferenced l = head l.
Proof. intros Hall. unfold first_unreferenced. by rewrite find_unreferenced_all. Qed.

Lemma clear_bit_unreferenced (v : node) :
  reference_bit v.2 = false → clear_bit v = v.
Proof. destruct v as [a [f b]]. simpl. by intros ->. Qed.

(** The sweep stops on the first descriptor, from the hand onwards and
    around, whose reference bit is not set; it evaluates the loop condition
    at most [Size + 1] times and clears the reference bit of every
    descriptor it passes, and of no other.  The list it leaves is
    [L ++ clear_bit v :: R], with the hand on [v]: the hand stopped before
    the end of the list, or wrapped and stopped in the part before where it
    started, or came back to where it started. *)
Lemma sweep_exact m A h fs B :
  NoDup (ids (A ++ (h, fs) :: B)) →
  ∃ L v R l1,
    l1 = L ++ clear_bit v :: R ∧
    ((∃ T, (h, fs) :: B = T ++ v :: R ∧ Forall referenced T ∧
           reference_bit v.2 = false ∧ L = A ++ clear_bits T) ∨
     (∃ T R0, Forall referenced ((h, fs) :: B) ∧ A = T ++ v :: R0 ∧
              Forall referenced T ∧ reference_bit v.2 = false ∧
              L = clear_bits T ∧ R = R0 ++ clear_bits ((h, fs) :: B)) ∨
     (Forall referenced (A ++ (h, fs) :: B) ∧ v = (h, fs) ∧
      L = clear_bits A ∧ R = clear_bits B)) ∧
    first_unreferenced (((h, fs) :: B) ++ A) = Some v ∧
    shape l1 = shape (A ++ (h, fs) :: B) ∧
    deref v.1 l1 = Some (clear_bit v).2 ∧
    ∀ fuel, (length (A ++ (h, fs) :: B) < fuel)%nat →
      sweep fuel {| frame_map_ := m; frame_list_ := A ++ (h, fs) :: B;
                    clock_hand_ := Some h |}
      = Some {| frame_map_ := m; frame_list_ := l1; clock_hand_ := Some v.1 |}.
Proof.
  intros Hnd. remember ((h, fs) :: B) as S0 eqn:HS0.
  destruct (referenced_split S0) as [HS|(T & v & R & HS & HT & Hv)].
  - destruct (referenced_split A) as [HA|(T & v & R & HA & HT & Hv)].
    + (* every bit is set: one full turn, back to the hand *)
      exists (clear_bits A), (h, fs), (clear_bits B), (clear_bits A ++ clear_bits S0).
      split; [by rewrite HS0|].
      split; [right; right; split; [by apply Forall_app|done]|].
      split; [rewrite first_unreferenced_all; [by rewrite HS0|by apply Forall_app]|].
      split; [by rewrite !shape_app, !shape_clear_bits|].
      split.
      { rewrite deref_skip.
        - rewrite HS0. apply deref_here.
        - rewrite ids_clear_bits. apply (NoDup_ids_app_l _ _ Hnd).
          rewrite HS0, ids_cons. set_solver. }
      intros fuel Hfuel. rewrite length_app in Hfuel.
      replace fuel with (length S0 + (length A + (fuel - length S0 - length A)))%nat by lia.
      pose proof (sweep_pass m S0 A [] (length A + (fuel - length S0 - length A))) as H1.
      rewrite !app_nil_r in H1. replace (begin S0) with (Some h) in H1 by (by rewrite HS0).
      rewrite H1; [|done|done|by rewrite HS0]. clear H1.
      pose proof (sweep_pass m A [] (clear_bits S0) (fuel - length S0 - length A)) as H2.
      simpl in H2.
      assert (Hx : match clear_bits S0 with
                   | [] => begin (clear_bits A)
                   | x :: _ => Some x.1
                   end = Some h) by (by rewrite HS0).
      rewrite Hx in H2. rewrite H2; clear H2 Hx.
      * destruct (fuel - length S0 - length A)%nat as [|k] eqn:Hk; [lia|].
        apply (sweep_stop _ _ h {| frame_id := frame_id fs; reference_bit := false |}); simpl; [done| |done].
        rewrite HS0, deref_skip; [apply deref_here|].
        rewrite ids_clear_bits. apply (NoDup_ids_app_l _ _ Hnd).
        rewrite HS0, ids_cons. set_solver.
      * rewrite ids_app in *. by rewrite ids_clear_bits.
      * done.
      * intros _. by rewrite HS0.
    + (* the hand wraps and stops in the part of the list before it *)
      exists (clear_bits T), v, (R ++ clear_bits S0),
        (clear_bits T ++ v :: R ++ clear_bits S0).
      split; [by rewrite clear_bit_unreferenced|].
      split; [right; left; by exists T, R|].
      assert (Hnd2 : NoDup (ids ([] ++ T ++ v :: R ++ clear_bits S0))).
      { simpl. subst A. rewrite <- !app_assoc in Hnd. simpl in Hnd.
        rewrite !ids_app, !ids_cons_nd, !ids_app in *. by rewrite ids_clear_bits. }
      split.
      { rewrite HA. rewrite (app_assoc S0 T).
        apply first_unreferenced_found; [by apply Forall_app|done]. }
      split.
      { subst A. rewrite <- !app_assoc. simpl.
        rewrite !shape_app. simpl. rewrite !shape_app, !shape_clear_bits. done. }
      split.
      { rewrite clear_bit_unreferenced by done. rewrite deref_skip.
        - destruct v. apply deref_here.
        - rewrite ids_clear_bits. simpl in Hnd2. rewrite ids_app in Hnd2.
          apply NoDup_app in Hnd2 as (_ & Hd & _). intros Hin.
          apply (Hd _ Hin). destruct v. rewrite ids_cons. by left. }
      intros fuel Hfuel. rewrite HA, !length_app in Hfuel. simpl in Hfuel.
      replace fuel with (length S0 + (length T + (fuel - length S0 - length T)))%nat by lia.
      pose proof (sweep_pass m S0 A [] (length T + (fuel - length S0 - length T))) as H1.
      rewrite !app_nil_r in H1. replace (begin S0) with (Some h) in H1 by (by rewrite HS0).
      rewrite H1; [|done|done|by rewrite HS0]. clear H1.
      pose proof (sweep_pass m T [] (v :: R ++ clear_bits S0) (fuel - length S0 - length T)) as H2.
      simpl in H2. rewrite HA. rewrite <- !app_assoc. simpl.
      rewrite H2; [|done..]. clear H2.
      destruct (fuel - length S0 - length T)%nat as [|k] eqn:Hk; [lia|].
      apply (sweep_stop _ _ v.1 v.2); simpl; [done| |exact Hv].
      rewrite deref_skip.
      * destruct v. apply deref_here.
      * rewrite ids_clear_bits. simpl in Hnd2. rewrite ids_app in Hnd2.
        apply NoDup_app in Hnd2 as (_ & Hd & _). intros Hin.
        apply (Hd _ Hin). destruct v. rewrite ids_cons. by left.
  - (* the hand stops before the end of the list *)
    exists (A ++ clear_bits T), v, R, (A ++ clear_bits T ++ v :: R).
    split; [by rewrite clear_bit_unreferenced, <- app_assoc|].
    split; [left; by exists T|].
    assert (HvA : v.1 ∉ ids (A ++ clear_bits T)).
    { rewrite HS in Hnd. rewrite app_assoc in Hnd.
      rewrite ids_app, ids_clear_bits, <- ids_app.
      apply (NoDup_ids_app_l _ _ Hnd). destruct v. rewrite ids_cons. set_solver. }
    split.
    { rewrite HS, <- app_assoc. simpl. by apply first_unreferenced_found. }
    split.
    { rewrite HS, !shape_app, shape_clear_bits. done. }
    split.
    { rewrite clear_bit_unreferenced by done. rewrite app_assoc, deref_skip by done.
      destruct v. apply deref_here. }
    intros fuel Hfuel. rewrite HS, !length_app in Hfuel. simpl in Hfuel.
    replace fuel with (length T + (fuel - length T))%nat by lia.
    pose proof (sweep_pass m T A (v :: R) (fuel - length T)) as H1.
    assert (Hb : begin (T ++ v :: R) = Some h).
    { rewrite <- HS, HS0. done. }
    rewrite Hb in H1. rewrite HS, H1; clear H1.
    + destruct (fuel - length T)%nat as [|k] eqn:Hk; [lia|].
      apply (sweep_stop _ _ v.1 v.2); simpl; [done| |exact Hv].
      rewrite app_assoc, deref_skip by done. destruct v. apply deref_here.
    + by rewrite <- HS.
    + done.
    + done.
Qed.

Lemma sweep_spec m A h fs B :
  NoDup (ids (A ++ (h, fs) :: B)) →
  ∃ l1 v,
    first_unreferenced (((h, fs) :: B) ++ A) = Some v ∧
    shape l1 = shape (A ++ (h, fs) :: B) ∧
    deref v.1 l1 = Some (clear_bit v).2 ∧
    ∀ fuel, (length (A ++ (h, fs) :: B) < fuel)%nat →
      sweep fuel {| frame_map_ := m; frame_list_ := A ++ (h, fs) :: B;
                    clock_hand_ := Some h |}
      = Some {| frame_map_ := m; frame_list_ := l1; clock_hand_ := Some v.1 |}.
Proof.
  intros Hnd.
  destruct (sweep_exact m A h fs B Hnd) as (L & v & R & l1 & _ & _ & ? & ? & ? & ?).
  by exists l1, v.
Qed.

End Sweep.

Section Replacer.
Import ClockReplacer.
Implicit Types (l A B T X : list (nat * FrameState)) (it h : nat) (fs : FrameState)
  (st : t) (fid : Z).

Lemma fresh_not_in l : fresh l ∉ ids l.
Proof.
  unfold fresh, ids. intros Hin. apply max_list_elem_of_le in Hin. lia.
Qed.

Lemma shape_elem l it fid :
  (it, fid) ∈ shape l ↔ ∃ fs, (it, fs) ∈ l ∧ frame_id fs = fid.
Proof.
  unfold shape. rewrite list_elem_of_fmap. split.
  - intros ([a fa] & Heq & Hin). simpl in Heq. inversion Heq; subst. eauto.
  - intros (fs & Hin & <-). by exists (it, fs).
Qed.

Lemma shape_elem_ids l it fid : (it, fid) ∈ shape l → it ∈ ids l.
Proof.
  rewrite shape_elem. intros (fs & Hin & _).
  unfold ids. apply list_elem_of_fmap. by exists (it, fs).
Qed.

Lemma tracked_elem st fid :
  fid ∈ tracked st ↔ ∃ it, (it, fid) ∈ shape (frame_list_ st).
Proof.
  unfold tracked. rewrite <- list_fmap_compose, list_elem_of_fmap. split.
  - intros ([a fa] & -> & Hin). exists a. apply shape_elem. eauto.
  - intros (it & Hin). apply shape_elem in Hin as (fs & Hin & <-).
    by exists (it, fs).
Qed.

Lemma wf_tracked_lookup st fid :
  wf st → fid ∈ tracked st ↔ is_Some (frame_map_ st !! fid).
Proof.
  intros Hwf. rewrite tracked_elem. split.
  - intros (it & Hin). exists it. by apply (wf_map _ Hwf).
  - intros (it & Hl). exists it. by apply (wf_map _ Hwf).
Qed.

Lemma new_wf n : wf (new n).
Proof.
  split; simpl.
  - apply NoDup_nil_2.
  - intros fid it. rewrite lookup_empty. split; [done|].
    intros Hin. by apply elem_of_nil in Hin.
  - done.
  - done.
Qed.

(** A node of a duplicate-free list determines its frame. *)
Lemma shape_at A it fs B fid :
  NoDup (ids (A ++ (it, fs) :: B)) →
  (it, fid) ∈ shape (A ++ (it, fs) :: B) → fid = frame_id fs.
Proof.
  intros Hnd Hin. rewrite ids_app, ids_cons in Hnd.
  apply NoDup_app in Hnd as (_ & HdA & HndB). apply NoDup_cons in HndB as [HnB _].
  rewrite shape_app in Hin. apply elem_of_app in Hin as [Hin|Hin].
  - apply shape_elem_ids in Hin. exfalso. apply (HdA _ Hin). by left.
  - change (shape ((it, fs) :: B)) with ((it, frame_id fs) :: shape B) in Hin.
    apply elem_of_cons in Hin as [Heq|Hin]; [congruence|].
    apply shape_elem_ids in Hin. done.
Qed.

Lemma filter_shape_other fid l :
  (∀ it, (it, fid) ∉ shape l) →
  filter (λ x : nat * Z, x.2 ≠ fid) (shape l) = shape l.
Proof.
  induction l as [|[a fa] l IH]; intros Hn; [done|].
  change (shape ((a, fa) :: l)) with ((a, frame_id fa) :: shape l) in *.
  rewrite filter_cons_True.
  - f_equal. apply IH. intros it Hin. apply (Hn it). by right.
  - simpl. intros Heq. apply (Hn a). rewrite <- Heq. by left.
Qed.

Lemma Unpin_tracked_eq st fid :
  is_Some (frame_map_ st !! fid) → Unpin fid st = st.
Proof. intros [it Hit]. unfold Unpin. by rewrite Hit. Qed.

Lemma Unpin_untracked_eq st fid :
  frame_map_ st !! fid = None →
  Unpin fid st =
  {| frame_map_ := <[fid := fresh (frame_list_ st)]> (frame_map_ st);
     frame_list_ := frame_list_ st ++ [(fresh (frame_list_ st), FrameState_new fid)];
     clock_hand_ := match frame_list_ st with
                    | [] => Some (fresh (frame_list_ st))
                    | _ :: _ => clock_hand_ st
                    end |}.
Proof.
  intros Hn. unfold Unpin. rewrite Hn. unfold push_back. f_equal.
  destruct (frame_list_ st) as [|nd l]; [done|].
  case_decide as Hl; [|done]. rewrite length_app in Hl. simpl in Hl. lia.
Qed.

Lemma Unpin_wf st fid : wf st → wf (Unpin fid st).
Proof.
  intros Hwf. destruct (frame_map_ st !! fid) as [it|] eqn:Hl.
  { by rewrite Unpin_tracked_eq. }
  rewrite Unpin_untracked_eq by done.
  pose proof (fresh_not_in (frame_list_ st)) as Hfresh.
  split; simpl.
  - rewrite ids_app. apply NoDup_app. split; [apply (wf_ids _ Hwf)|].
    split; [|apply NoDup_singleton].
    intros x Hx Hx'. apply list_elem_of_singleton in Hx'. simpl in Hx'. by subst.
  - intros fid' it'. rewrite shape_app, elem_of_app.
    change (shape [(fresh (frame_list_ st), FrameState_new fid)])
      with [(fresh (frame_list_ st), fid)].
    rewrite list_elem_of_singleton, <- (wf_map _ Hwf).
    destruct (decide (fid' = fid)) as [->|Hne].
    + rewrite lookup_insert_eq, Hl. split.
      * intros Heq. right. congruence.
      * intros [Hn|Heq]; [discriminate|congruence].
    + rewrite lookup_insert_ne by done. split; [by left|].
      intros [?|Heq]; [done|congruence].
  - destruct (frame_list_ st) eqn:El; [split; done|]. split; [|done].
    intros Hh. apply (wf_hand_none _ Hwf) in Hh. congruence.
  - intros h Hh. rewrite ids_app, elem_of_app.
    destruct (frame_list_ st) as [|nd l] eqn:El.
    + right. inversion Hh. simpl. set_solver.
    + left. rewrite <- El. apply (wf_hand_some _ Hwf). done.
Qed.

Lemma Unpin_tracked st fid f :
  wf st → f ∈ tracked (Unpin fid st) ↔ f = fid ∨ f ∈ tracked st.
Proof.
  intros Hwf. destruct (frame_map_ st !! fid) as [it|] eqn:Hl.
  - rewrite Unpin_tracked_eq by done. split; [by right|].
    intros [->|?]; [|done]. apply wf_tracked_lookup; done.
  - rewrite Unpin_untracked_eq by done. unfold tracked. simpl.
    rewrite !fmap_app, elem_of_app. simpl. rewrite list_elem_of_singleton.
    tauto.
Qed.


Lemma RemoveFrame_untracked st fid :
  frame_map_ st !! fid = None → RemoveFrame fid st = Some st.
Proof. intros Hn. unfold RemoveFrame. by rewrite Hn. Qed.

Lemma RemoveFrame_tracked st fid it :
  wf st → frame_map_ st !! fid = Some it →
  ∃ A fs B,
    frame_list_ st = A ++ (it, fs) :: B ∧ frame_id fs = fid ∧
    RemoveFrame fid st =
    Some {| frame_map_ := delete fid (frame_map_ st);
            frame_list_ := A ++ B;
            clock_hand_ :=
              match A ++ B with
              | [] => None
              | _ :: _ =>
                  if decide (Some it = clock_hand_ st)
                  then match B with [] => begin A | b :: _ => Some b.1 end
                  else clock_hand_ st
              end |}.
Proof.
  intros Hwf Hl. pose proof (proj1 (wf_map _ Hwf fid it) Hl) as Hin.
  destruct (ids_split it (frame_list_ st)) as (A & fs & B & El & HnA).
  { by eapply shape_elem_ids. }
  pose proof (wf_ids _ Hwf) as Hnd. rewrite El in Hin, Hnd.
  pose proof (shape_at _ _ _ _ _ Hnd Hin) as Hfid.
  exists A, fs, B. split; [done|]. split; [done|].
  unfold RemoveFrame. rewrite Hl.
  destruct (decide (Some it = clock_hand_ st)) as [Hh|Hh].
  - unfold NextClockHand. rewrite <- Hh, El.
    rewrite incr_skip, incr_here by done.
    destruct B as [|b B]; simpl.
    + rewrite erase_skip, erase_here by done. simpl. rewrite !app_nil_r.
      f_equal. f_equal. destruct A; simpl; [done|]. done.
    + rewrite erase_skip, erase_here by done. simpl. f_equal. f_equal.
      case_decide as Hlen; [|by destruct A].
      rewrite length_app in Hlen. simpl in Hlen. lia.
  - simpl. rewrite El, erase_skip, erase_here by done. simpl. f_equal. f_equal.
    destruct (A ++ B) eqn:EAB; simpl; [done|]. done.
Qed.

Lemma RemoveFrame_spec st fid :
  wf st →
  ∃ st', RemoveFrame fid st = Some st' ∧ wf st' ∧
         frame_map_ st' = delete fid (frame_map_ st) ∧
         shape (frame_list_ st')
         = filter (λ x : nat * Z, x.2 ≠ fid) (shape (frame_list_ st)).
Proof.
  intros Hwf. destruct (frame_map_ st !! fid) as [it|] eqn:Hl.
  - destruct (RemoveFrame_tracked _ _ _ Hwf Hl) as (A & fs & B & El & Hfid & ->).
    pose proof (wf_ids _ Hwf) as Hnd. rewrite El in Hnd.
    assert (HitA : it ∉ ids A).
    { apply (NoDup_ids_app_l _ _ Hnd). rewrite ids_cons. by left. }
    assert (HitB : it ∉ ids B).
    { rewrite ids_app, ids_cons in Hnd. apply NoDup_app in Hnd as (_ & _ & Hnd).
      by apply NoDup_cons in Hnd as [? _]. }
    assert (Hother : ∀ it', (it', fid) ∈ shape (A ++ B) → False).
    { intros it' Hin.
      assert (Hin' : (it', fid) ∈ shape (frame_list_ st)).
      { rewrite El. rewrite shape_app in *. rewrite elem_of_app in *.
        destruct Hin; [by left|right; by right]. }
      apply (wf_map _ Hwf) in Hin'. rewrite Hl in Hin'. inversion Hin'; subst it'.
      apply shape_elem_ids in Hin. rewrite ids_app, elem_of_app in Hin. tauto. }
    eexists. split; [done|]. split; [|split]; simpl.
    + split; simpl.
      * rewrite ids_app, ids_cons in Hnd. rewrite ids_app.
        apply NoDup_app in Hnd as (HA & Hd & HB). apply NoDup_cons in HB as [_ HB].
        apply NoDup_app. split; [done|]. split; [|done].
        intros x Hx Hx'. apply (Hd x Hx). by right.
      * intros fid' it'. destruct (decide (fid' = fid)) as [->|Hne].
        -- rewrite lookup_delete_eq. split; [done|]. intros Hin. by destruct (Hother _ Hin).
        -- rewrite lookup_delete_ne by done. rewrite (wf_map _ Hwf), El.
           rewrite !shape_app, !elem_of_app.
           change (shape ((it, fs) :: B)) with ((it, frame_id fs) :: shape B).
           rewrite elem_of_cons. split; [|tauto].
           intros [?|[[= _ ?]|?]]; [tauto|congruence|tauto].
      * destruct (A ++ B) as [|x AB] eqn:EAB; [done|]. split; [|done].
        case_decide as Hh.
        -- destruct B as [|b B]; [|done]. rewrite app_nil_r in EAB. by subst A.
        -- intros Hnone. apply (wf_hand_none _ Hwf) in Hnone.
           rewrite El in Hnone. by destruct A.
      * intros h. destruct (A ++ B) as [|x AB] eqn:EAB; [done|]. rewrite <- EAB.
        case_decide as Hh.
        -- destruct B as [|b B].
           ++ rewrite app_nil_r in *. subst A. intros [= <-]. rewrite ids_cons_nd. by left.
           ++ intros [= <-]. rewrite ids_app, ids_cons_nd. apply elem_of_app. right. by left.
        -- intros Hhand. pose proof (wf_hand_some _ Hwf _ Hhand) as Hin.
           rewrite El, ids_app, ids_cons in Hin. rewrite ids_app.
           rewrite elem_of_app, elem_of_cons in Hin. rewrite elem_of_app.
           destruct Hin as [?|[->|?]]; [tauto| |tauto]. congruence.
    + done.
    + rewrite El, !shape_app.
      change (shape ((it, fs) :: B)) with ((it, frame_id fs) :: shape B).
      rewrite filter_app, filter_cons_False by (simpl; intros Hc; by apply Hc).
      rewrite !filter_shape_other; [done| |].
      * intros it' Hin. apply (Hother it'). rewrite shape_app, elem_of_app. by right.
      * intros it' Hin. apply (Hother it'). rewrite shape_app, elem_of_app. by left.
  - rewrite RemoveFrame_untracked by done. exists st. split; [done|]. split; [done|].
    split.
    + symmetry. by apply delete_id.
    + symmetry. apply filter_shape_other. intros it Hin.
      apply (wf_map _ Hwf) in Hin. congruence.
Qed.

Lemma shape_filter_tracked st st' fid :
  shape (frame_list_ st')
  = filter (λ x : nat * Z, x.2 ≠ fid) (shape (frame_list_ st)) →
  ∀ f, f ∈ tracked st' ↔ f ∈ tracked st ∧ f ≠ fid.
Proof.
  intros Hs f. rewrite !tracked_elem, Hs. split.
  - intros (it & Hin). apply list_elem_of_filter in Hin as [Hne Hin]. eauto.
  - intros [(it & Hin) Hne]. exists it. by apply list_elem_of_filter.
Qed.

Lemma wf_shape m l hd l1 h' :
  wf {| frame_map_ := m; frame_list_ := l; clock_hand_ := hd |} →
  shape l1 = shape l → h' ∈ ids l1 →
  wf {| frame_map_ := m; frame_list_ := l1; clock_hand_ := Some h' |}.
Proof.
  intros Hwf Hs Hin. split; simpl.
  - rewrite (shape_ids _ _ Hs). apply (wf_ids _ Hwf).
  - intros fid it. rewrite Hs. apply (wf_map _ Hwf).
  - split; [done|]. intros ->. by apply elem_of_nil in Hin.
  - by intros h [= <-].
Qed.

Lemma deref_elem it l fs : deref it l = Some fs → (it, fs) ∈ l.
Proof.
  induction l as [|[a fa] l IH]; simpl; [done|].
  case_decide; [intros [= ->]; subst; by left|]. intros Hd. right. by apply IH.
Qed.


Lemma wf_hand_split st h :
  wf st → clock_hand_ st = Some h →
  ∃ A fs B, frame_list_ st = A ++ (h, fs) :: B.
Proof.
  intros Hwf Hh. destruct (ids_split h (frame_list_ st)) as (A & fs & B & El & _).
  { by apply (wf_hand_some _ Hwf). }
  by exists A, fs, B.
Qed.

(** [Victim] on a well-formed state with the hand on a node. *)
Lemma Victim_fuel_tracked st out A h fs B :
  wf st → frame_list_ st = A ++ (h, fs) :: B → clock_hand_ st = Some h →
  ∃ v st',
    first_unreferenced (((h, fs) :: B) ++ A) = Some v ∧
    wf st' ∧
    frame_map_ st' = delete (frame_id v.2) (frame_map_ st) ∧
    shape (frame_list_ st')
    = filter (λ x : nat * Z, x.2 ≠ frame_id v.2) (shape (frame_list_ st)) ∧
    ∀ fuel, (Size st < fuel)%nat →
      Victim_fuel fuel out st = Some (true, frame_id v.2, st').
Proof.
  intros Hwf El Hh. destruct st as [m l hd]. simpl in *. subst l hd.
  pose proof (wf_ids _ Hwf) as Hnd. simpl in Hnd.
  destruct (sweep_spec m A h fs B Hnd) as (l1 & v & Hv & Hs & Hd & Hsweep).
  assert (Hwf1 : wf {| frame_map_ := m; frame_list_ := l1; clock_hand_ := Some v.1 |}).
  { eapply wf_shape; [exact Hwf|exact Hs|].
    apply deref_elem in Hd. unfold ids. apply list_elem_of_fmap.
    by exists (v.1, (clear_bit v).2). }
  destruct (RemoveFrame_spec _ (frame_id v.2) Hwf1) as (st' & HR & Hwf' & Hm & Hs').
  exists v, st'. split; [done|]. split; [done|]. simpl in *.
  split; [done|]. split; [by rewrite Hs', Hs|].
  intros fuel Hfuel. unfold Victim_fuel, Size in *. simpl in *.
  rewrite Hsweep by done. simpl. rewrite Hd. simpl. rewrite HR. done.
Qed.

(** [RemoveFrame] of the frame whose descriptor the hand is on: the
    descriptor leaves the list, and the hand moves to the one that followed
    it, the first of the list when none did. *)
Lemma RemoveFrame_at_hand m L (v : node) R :
  NoDup (ids (L ++ v :: R)) → m !! frame_id v.2 = Some v.1 →
  RemoveFrame (frame_id v.2)
    {| frame_map_ := m; frame_list_ := L ++ v :: R; clock_hand_ := Some v.1 |}
  = Some {| frame_map_ := delete (frame_id v.2) m; frame_list_ := L ++ R;
            clock_hand_ := begin (R ++ L) |}.
Proof.
  intros Hnd Hl. destruct v as [a fa]. simpl in *.
  assert (HaL : a ∉ ids L).
  { apply (NoDup_ids_app_l _ _ Hnd). rewrite ids_cons. by left. }
  unfold RemoveFrame. cbn [frame_map_ clock_hand_ frame_list_]. rewrite Hl.
  rewrite decide_True by done. unfold NextClockHand.
  cbn [frame_map_ clock_hand_ frame_list_].
  rewrite incr_skip, incr_here by done.
  destruct R as [|r R]; simpl; rewrite erase_skip, erase_here by done; simpl.
  - rewrite !app_nil_r. by destruct L.
  - f_equal. f_equal. rewrite decide_False; [done|].
    rewrite length_app. simpl. lia.
Qed.

(** [Victim] on a well-formed state with the hand on a node: the state it
    returns, in full. *)
Lemma Victim_fuel_exact st out A h fs B :
  wf st → frame_list_ st = A ++ (h, fs) :: B → clock_hand_ st = Some h →
  ∃ L v R,
    ((∃ T, (h, fs) :: B = T ++ v :: R ∧ Forall referenced T ∧
           reference_bit v.2 = false ∧ L = A ++ clear_bits T) ∨
     (∃ T R0, Forall referenced ((h, fs) :: B) ∧ A = T ++ v :: R0 ∧
              Forall referenced T ∧ reference_bit v.2 = false ∧
              L = clear_bits T ∧ R = R0 ++ clear_bits ((h, fs) :: B)) ∨
     (Forall referenced (A ++ (h, fs) :: B) ∧ v = (h, fs) ∧
      L = clear_bits A ∧ R = clear_bits B)) ∧
    first_unreferenced (((h, fs) :: B) ++ A) = Some v ∧
    ∀ fuel, (Size st < fuel)%nat →
      Victim_fuel fuel out st
      = Some (true, frame_id v.2,
              {| frame_map_ := delete (frame_id v.2) (frame_map_ st);
                 frame_list_ := L ++ R; clock_hand_ := begin (R ++ L) |}).
Proof.
  intros Hwf El Hh. destruct st as [m l hd]. simpl in *. subst l hd.
  pose proof (wf_ids _ Hwf) as Hnd. simpl in Hnd.
  destruct (sweep_exact m A h fs B Hnd)
    as (L & v & R & l1 & El1 & Hcases & Hv & Hs & Hd & Hsweep).
  assert (Hvin : v.1 ∈ ids l1).
  { apply deref_elem in Hd. unfold ids. apply list_elem_of_fmap.
    by exists (v.1, (clear_bit v).2). }
  assert (Hwf1 : wf {| frame_map_ := m; frame_list_ := l1; clock_hand_ := Some v.1 |}).
  { eapply wf_shape; [exact Hwf|exact Hs|exact Hvin]. }
  pose proof (wf_ids _ Hwf1) as Hnd1. simpl in Hnd1. rewrite El1 in Hnd1.
  assert (Hl : m !! frame_id v.2 = Some v.1).
  { apply (wf_map _ Hwf1). simpl. rewrite El1, shape_app, elem_of_app. right.
    destruct v as [a [f b]]. by left. }
  exists L, v, R. split; [exact Hcases|]. split; [exact Hv|].
  intros fuel Hfuel. unfold Victim_fuel, Size in *. simpl in *.
  rewrite Hsweep by done. simpl. rewrite Hd. simpl.
  rewrite El1.
  pose proof (RemoveFrame_at_hand m L (clear_bit v) R Hnd1) as HR.
  destruct v as [a [f b]]. simpl in *. rewrite (HR Hl). done.
Qed.

Lemma Victim_fuel_empty fuel st out :
  clock_hand_ st = None → Victim_fuel fuel out st = Some (false, out, st).
Proof. intros Hh. unfold Victim_fuel. by rewrite Hh. Qed.

Lemma find_unreferenced_elem l v : find_unreferenced l = Some v → v ∈ l.
Proof.
  induction l as [|nd l IH]; simpl; [done|].
  destruct (reference_bit nd.2); [|intros [= ->]; by left].
  intros Hf. right. by apply IH.
Qed.

Lemma first_unreferenced_elem l v : first_unreferenced l = Some v → v ∈ l.
Proof.
  unfold first_unreferenced. destruct (find_unreferenced l) as [nd|] eqn:Hf.
  - intros [= <-]. by apply find_unreferenced_elem.
  - destruct l; simpl; [done|]. intros [= <-]. by left.
Qed.

(** [Victim] is defined on every well-formed state; it fails exactly when
    nothing is tracked, and otherwise hands out a tracked frame and stops
    tracking it. *)
Lemma Victim_wf st out :
  wf st →
  (tracked st = [] ∧ Victim out st = Some (false, out, st)) ∨
  (∃ f st', Victim out st = Some (true, f, st') ∧ wf st' ∧ f ∈ tracked st ∧
            ∀ x, x ∈ tracked st' ↔ x ∈ tracked st ∧ x ≠ f).
Proof.
  intros Hwf. destruct (clock_hand_ st) as [h|] eqn:Hh.
  - right. destruct (wf_hand_split _ _ Hwf Hh) as (A & fs & B & El).
    destruct (Victim_fuel_tracked st out A h fs B Hwf El Hh)
      as (v & st' & Hv & Hwf' & Hm & Hs & HV).
    exists (frame_id v.2), st'. split; [apply HV; lia|]. split; [done|].
    split; [|by apply shape_filter_tracked].
    apply first_unreferenced_elem in Hv.
    unfold tracked. rewrite El, <- list_fmap_compose. apply list_elem_of_fmap.
    exists v. split; [done|]. rewrite elem_of_app in *. simpl in Hv. tauto.
  - left. split; [|by apply Victim_fuel_empty].
    apply (wf_hand_none _ Hwf) in Hh. unfold tracked. by rewrite Hh.
Qed.

Lemma NextClockHand_list st st' :
  NextClockHand st = Some st' →
  frame_list_ st' = frame_list_ st ∧ frame_map_ st' = frame_map_ st.
Proof.
  unfold NextClockHand. destruct (clock_hand_ st); [|by intros [= <-]].
  destruct (incr _ _) as [[?|]|]; [| |done]; by intros [= <-].
Qed.

Lemma set_bits_clear h l fs :
  deref h l = Some fs → reference_bit fs = true →
  S (set_bits (set_reference_bit h false l)) = set_bits l.
Proof.
  unfold set_bits. induction l as [|[a fa] l IH]; simpl; [done|].
  intros Hd Hb. case_decide as Ha.
  - inversion Hd; subst fa. rewrite filter_cons_False by (simpl; congruence).
    rewrite filter_cons_True by done. done.
  - destruct (reference_bit fa) eqn:Hfa.
    + rewrite !filter_cons_True by done. simpl. f_equal. by apply IH.
    + rewrite !filter_cons_False by (simpl; congruence). by apply IH.
Qed.

Lemma set_bits_le l : (set_bits l ≤ length l)%nat.
Proof. apply length_filter. Qed.

(** The loop of [Victim] needs no more fuel than there are reference bits
    set, in any state: with that much, more fuel does not change what it
    returns. *)
Lemma sweep_fuel_enough fuel : ∀ st fuel',
  (set_bits (frame_list_ st) < fuel)%nat → (fuel ≤ fuel')%nat →
  sweep fuel' st = sweep fuel st.
Proof.
  induction fuel as [|n IH]; intros st fuel' Hlt Hle; [lia|].
  destruct fuel' as [|n']; [lia|]. simpl.
  destruct (clock_hand_ st) as [h|]; [|done]. simpl.
  destruct (deref h (frame_list_ st)) as [fs|] eqn:Hd; [|done]. simpl.
  destruct (reference_bit fs) eqn:Hb; [|done].
  destruct (NextClockHand _) as [st1|] eqn:Hn; [|done]. simpl.
  apply NextClockHand_list in Hn as [Hl _]. simpl in Hl.
  apply IH; [|lia]. rewrite Hl.
  pose proof (set_bits_clear _ _ _ Hd Hb). lia.
Qed.

Lemma Victim_fuel_enough fuel st out :
  (Size st < fuel)%nat → Victim_fuel fuel out st = Victim out st.
Proof.
  intros Hlt. unfold Victim, Victim_fuel. destruct (clock_hand_ st); [|done].
  rewrite (sweep_fuel_enough (S (Size st)) st fuel); [done| |lia].
  pose proof (set_bits_le (frame_list_ st)). unfold Size. lia.
Qed.

End Replacer.

Section ReplacerClaims.
Import ClockReplacer.
Implicit Types (l A B T X : list (nat * FrameState)) (it h : nat) (fs : FrameState)
  (st : t) (fid : Z).

Lemma do_call_wf c st : wf st → ∃ st', do_call c st = Some st' ∧ wf st'.
Proof.
  intros Hwf. destruct c as [|fid|fid]; simpl.
  - destruct (Victim_wf st (-1) Hwf) as [[_ ->]|(f & st' & -> & Hwf' & _)];
      by eexists.
  - destruct (RemoveFrame_spec st fid Hwf) as (st' & HR & Hwf' & _).
    exists st'. by split.
  - exists (Unpin fid st). split; [done|]. by apply Unpin_wf.
Qed.

(** Every state the replacer reaches from construction is well formed, and
    no call is undefined on the way. *)
Lemma do_calls_wf cs : ∀ st, wf st → ∃ st', do_calls cs st = Some st' ∧ wf st'.
Proof.
  induction cs as [|c cs IH]; intros st Hwf; simpl; [by eexists|].
  destruct (do_call_wf c st Hwf) as (st1 & -> & Hwf1). simpl. by apply IH.
Qed.

Lemma Size_tracked st : Size st = length (tracked st).
Proof. unfold Size, tracked. by rewrite !length_fmap. Qed.

Lemma Unpin_untracked_list st fid :
  wf st → fid ∉ tracked st → tracked (Unpin fid st) = tracked st ++ [fid].
Proof.
  intros Hwf Hn. rewrite Unpin_untracked_eq.
  - unfold tracked. simpl. by rewrite !fmap_app.
  - destruct (frame_map_ st !! fid) eqn:Hl; [|done].
    destruct Hn. apply wf_tracked_lookup; [done|]. by eexists.
Qed.

Lemma Unpin_all fids : ∀ st,
  wf st → NoDup fids → (∀ f, f ∈ fids → f ∉ tracked st) →
  ∃ st', do_calls (CallUnpin <$> fids) st = Some st' ∧ wf st' ∧
         tracked st' = tracked st ++ fids.
Proof.
  induction fids as [|f fids IH]; intros st Hwf Hnd Hfresh.
  - exists st. by rewrite app_nil_r.
  - apply NoDup_cons in Hnd as [Hf Hnd].
    assert (Ht : tracked (Unpin f st) = tracked st ++ [f]).
    { apply Unpin_untracked_list; [done|]. apply Hfresh. by left. }
    destruct (IH (Unpin f st)) as (st' & Hrun & Hwf' & Ht'); [by apply Unpin_wf|done| |].
    + intros x Hx. rewrite Ht, not_elem_of_app. split.
      * apply Hfresh. by right.
      * rewrite list_elem_of_singleton. intros ->. done.
    + exists st'. split; [exact Hrun|]. split; [done|].
      by rewrite Ht', Ht, <- app_assoc.
Qed.

(** C9.  The replacer does not enforce the capacity it is constructed with:
    the constructor yields the same state whatever [num_pages] is; [Unpin]
    of a frame id that is not in the index appends a descriptor for it,
    whatever the id and the current size; and for every [num_pages], the
    calls [Unpin(0)], ..., [Unpin(num_pages)] leave [Size() = num_pages + 1]
    with a descriptor for the frame id [num_pages], which is outside
    [0, num_pages). *)
Theorem ClockReplacer_capacity_not_enforced :
  (∀ n n', new n = new n') ∧
  (∀ st fid,
     match frame_map_ st !! fid with
     | Some _ => Unpin fid st = st
     | None =>
         frame_list_ (Unpin fid st)
         = frame_list_ st ++ [(fresh (frame_list_ st), FrameState_new fid)] ∧
         frame_map_ (Unpin fid st) !! fid = Some (fresh (frame_list_ st)) ∧
         Size (Unpin fid st) = S (Size st)
     end) ∧
  (∀ num_pages,
     ∃ st, do_calls (CallUnpin <$> (Z.of_nat <$> seq 0 (S num_pages)))
                    (new num_pages) = Some st ∧
           (num_pages < Size st)%nat ∧
           Z.of_nat num_pages ∈ tracked st ∧
           ¬ (0 ≤ Z.of_nat num_pages < Z.of_nat num_pages)).
Proof.
  split; [done|]. split.
  - intros st fid. destruct (frame_map_ st !! fid) as [it|] eqn:Hl.
    + apply Unpin_tracked_eq. by eexists.
    + rewrite Unpin_untracked_eq by done. simpl. split; [done|].
      split; [apply lookup_insert_eq|]. unfold Size. simpl.
      rewrite length_app. simpl. lia.
  - intros n.
    destruct (Unpin_all (Z.of_nat <$> seq 0 (S n)) (new n)) as (st & Hrun & Hwf & Ht).
    + apply new_wf.
    + apply NoDup_fmap; [apply _|apply NoDup_seq].
    + intros f _ Hin. by apply elem_of_nil in Hin.
    + exists st. split; [done|].
      change (tracked (new n)) with (@nil Z) in Ht. rewrite app_nil_l in Ht.
      rewrite Size_tracked, Ht, length_fmap, length_seq.
      split; [lia|]. split; [|lia].
      apply list_elem_of_fmap. exists n. split; [done|]. apply elem_of_seq. lia.
Qed.

(** C5.  On a well-formed replacer state: when nothing is tracked, [Victim]
    returns false and leaves the state and [*frame_id] as they are.
    Otherwise the hand is on a node of the list, and with fuel for two
    revolutions (in fact for [Size + 1] evaluations of the loop condition)
    the sweep ends; [*frame_id] is set to the frame of the first descriptor,
    from the hand onwards and around, whose reference bit is not set (the
    descriptor under the hand, its bit cleared by the sweep, when all are
    set); that descriptor leaves the list and the index, the others stay in
    order; the result is [true].

    The state returned is given in full.  The list is [L ++ R], where [L]
    are the descriptors before the chosen one and [R] those after it, and
    the hand is on the first descriptor of [R ++ L], the one that followed
    the chosen one; the reference bit is cleared on the descriptors the
    hand passed and as it was on the others.  Three cases: the hand stops
    before the end of the list; it wraps and stops in the part of the list
    before where it started, having passed everything from there to the
    end; every bit is set, and it comes back to where it started, having
    passed the whole list. *)
Theorem Victim_clock_sweep st out fuel :
  wf st → (2 * Size st ≤ fuel)%nat →
  match frame_list_ st with
  | [] => Victim_fuel fuel out st = Some (false, out, st)
  | _ :: _ =>
      ∃ A h fs B v st' L R,
        frame_list_ st = A ++ (h, fs) :: B ∧ clock_hand_ st = Some h ∧
        first_unreferenced (((h, fs) :: B) ++ A) = Some v ∧
        Victim_fuel fuel out st = Some (true, frame_id v.2, st') ∧
        shape (frame_list_ st')
        = filter (λ x : nat * Z, x.2 ≠ frame_id v.2) (shape (frame_list_ st)) ∧
        frame_map_ st' = delete (frame_id v.2) (frame_map_ st) ∧
        ¬ (frame_id v.2 ∈ tracked st') ∧
        Size st' = pred (Size st) ∧
        wf st' ∧
        frame_list_ st' = L ++ R ∧
        clock_hand_ st' = begin (R ++ L) ∧
        ((∃ T, (h, fs) :: B = T ++ v :: R ∧ Forall referenced T ∧
               reference_bit v.2 = false ∧ L = A ++ clear_bits T) ∨
         (∃ T R0, Forall referenced ((h, fs) :: B) ∧ A = T ++ v :: R0 ∧
                  Forall referenced T ∧ reference_bit v.2 = false ∧
                  L = clear_bits T ∧ R = R0 ++ clear_bits ((h, fs) :: B)) ∨
         (Forall referenced (A ++ (h, fs) :: B) ∧ v = (h, fs) ∧
          L = clear_bits A ∧ R = clear_bits B))
  end.
Proof.
  intros Hwf Hfuel. destruct (frame_list_ st) as [|nd l] eqn:El.
  - apply Victim_fuel_empty. by apply (wf_hand_none _ Hwf).
  - destruct (clock_hand_ st) as [h|] eqn:Hh.
    2:{ apply (wf_hand_none _ Hwf) in Hh. congruence. }
    destruct (wf_hand_split _ _ Hwf Hh) as (A & fs & B & El').
    destruct (Victim_fuel_tracked st out A h fs B Hwf El' Hh)
      as (v & st' & Hv & Hwf' & Hm & Hs & HV).
    assert (Hnt : frame_id v.2 ∉ tracked st').
    { intros Hin. apply (shape_filter_tracked _ _ _ Hs) in Hin as [_ ?]. done. }
    destruct (Victim_fuel_exact st out A h fs B Hwf El' Hh)
      as (L & v2 & R & Hcases & Hv2 & HV2).
    assert (v2 = v) as -> by congruence.
    assert (Hst' : st' = {| frame_map_ := delete (frame_id v.2) (frame_map_ st);
                            frame_list_ := L ++ R;
                            clock_hand_ := begin (R ++ L) |}).
    { pose proof (HV (S (Size st)) (Nat.lt_succ_diag_r _)) as E1.
      pose proof (HV2 (S (Size st)) (Nat.lt_succ_diag_r _)) as E2. congruence. }
    assert (Hexact : frame_list_ st' = L ++ R ∧ clock_hand_ st' = begin (R ++ L))
      by (by rewrite Hst').
    clear Hst'. destruct Hexact as [HL HH].
    exists A, h, fs, B, v, st', L, R. rewrite <- El.
    split; [exact El'|]. split; [done|]. split; [exact Hv|].
    split; [|split; [exact Hs|split; [exact Hm|split; [exact Hnt|split;
      [|split; [exact Hwf'|split; [exact HL|split; [exact HH|exact Hcases]]]]]]]].
    + apply HV. unfold Size in *. rewrite El in *. simpl in *. lia.
    + (* exactly one descriptor has left *)
      pose proof (first_unreferenced_elem _ _ Hv) as Hvin.
      assert (Hvl : v ∈ frame_list_ st).
      { rewrite El'. rewrite elem_of_app in *. tauto. }
      apply list_elem_of_split in Hvl as (L1 & L2 & EL).
      pose proof (wf_ids _ Hwf) as Hnd. rewrite EL in Hnd.
      assert (H1 : ∀ it, (it, frame_id v.2) ∉ shape L1).
      { intros it Hin.
        assert (Hit : it = v.1).
        { assert (Hin' : (it, frame_id v.2) ∈ shape (frame_list_ st)).
          { rewrite EL, shape_app, elem_of_app. by left. }
          assert (Hv' : (v.1, frame_id v.2) ∈ shape (frame_list_ st)).
          { rewrite EL, shape_app, elem_of_app. right. by left. }
          apply (wf_map _ Hwf) in Hin', Hv'. congruence. }
        subst it. apply shape_elem_ids in Hin.
        apply (NoDup_ids_app_l _ _ Hnd v.1); [|done]. rewrite ids_cons_nd. by left. }
      assert (H2 : ∀ it, (it, frame_id v.2) ∉ shape L2).
      { intros it Hin.
        assert (Hit : it = v.1).
        { assert (Hin' : (it, frame_id v.2) ∈ shape (frame_list_ st)).
          { rewrite EL, shape_app, elem_of_app. right. by right. }
          assert (Hv' : (v.1, frame_id v.2) ∈ shape (frame_list_ st)).
          { rewrite EL, shape_app, elem_of_app. right. by left. }
          apply (wf_map _ Hwf) in Hin', Hv'. congruence. }
        subst it. apply shape_elem_ids in Hin.
        rewrite ids_app, ids_cons_nd in Hnd. apply NoDup_app in Hnd as (_ & _ & Hnd).
        by apply NoDup_cons in Hnd as [? _]. }
      apply (f_equal length) in Hs. unfold Size. rewrite EL in Hs |- *.
      rewrite shape_app in Hs.
      change (shape (v :: L2)) with ((v.1, frame_id v.2) :: shape L2) in Hs.
      rewrite filter_app, filter_cons_False in Hs by (simpl; tauto).
      rewrite !filter_shape_other in Hs by done.
      unfold shape in Hs. rewrite !length_fmap, !length_app, !length_fmap in Hs.
      rewrite Hs, length_app. simpl. lia.
Qed.

End ReplacerClaims.

(** * Properties of the buffer pool manager *)

Section Manager.
Import BufferPoolManager.
Context `{Config} `{DiskManager}.
Implicit Types (s : t) (f : Z) (pg : Page) (p : Z).

Lemma page_at_in_pool s f :
  inv s → in_pool s f → is_Some (page_at f s).
Proof.
  intros Hinv [Hlo Hhi]. unfold page_at. rewrite decide_True by done.
  apply lookup_lt_is_Some. rewrite (inv_pages _ Hinv). lia.
Qed.

Lemma page_at_elem s f pg : page_at f s = Some pg → pg ∈ pages_ s.
Proof.
  unfold page_at. case_decide; [|done]. apply list_elem_of_lookup_2.
Qed.

Lemma page_at_set_page_eq s f pg :
  is_Some (page_at f s) → page_at f (set_page f pg s) = Some pg.
Proof.
  unfold page_at, set_page. simpl. case_decide; [|by intros [??]].
  intros Hs. apply lookup_lt_is_Some in Hs. by apply list_lookup_insert_eq.
Qed.

Lemma page_at_set_page_ne s f f' pg :
  0 ≤ f → f ≠ f' → page_at f' (set_page f pg s) = page_at f' s.
Proof.
  intros Hf Hne. unfold page_at, set_page. simpl. case_decide; [|done].
  apply list_lookup_insert_ne. lia.
Qed.

Lemma inv_set_page s f pg : inv s → 0 ≤ pin_count_ pg → inv (set_page f pg s).
Proof.
  intros [] Hpin. split; simpl; try done.
  - by rewrite length_insert.
  - intros pg' Hin. apply list_elem_of_lookup in Hin as [i Hi].
    destruct (decide (i = Z.to_nat f)) as [->|Hne].
    + destruct (decide (Z.to_nat f < length (pages_ s))%nat).
      * rewrite list_lookup_insert_eq in Hi by done. by inversion Hi; subst.
      * rewrite list_insert_ge in Hi by lia. apply inv_pin0.
        by eapply list_elem_of_lookup_2.
    + rewrite list_lookup_insert_ne in Hi by done. apply inv_pin0.
      by eapply list_elem_of_lookup_2.
Qed.

Lemma inv_disk_call s c : inv s → inv (disk_call c s).
Proof. intros []. by split. Qed.

Lemma inv_set_replacer s r :
  inv s → ClockReplacer.wf r →
  (∀ f, f ∈ ClockReplacer.tracked r → in_pool s f) → inv (set_replacer r s).
Proof. intros [] ??. by split. Qed.

Lemma inv_set_free_list s fl :
  inv s → (∀ f, f ∈ fl → in_pool s f) → inv (set_free_list fl s).
Proof. intros [] ?. by split. Qed.

Lemma inv_set_page_table s pt :
  inv s → (∀ p f, pt !! p = Some f → in_pool s f) → inv (set_page_table pt s).
Proof. intros [] ?. by split. Qed.

Lemma new_inv n : inv (new n).
Proof.
  split; simpl.
  - apply length_replicate.
  - intros f Hin. apply list_elem_of_fmap in Hin as (i & -> & Hi).
    apply elem_of_seq in Hi. unfold in_pool. simpl. lia.
  - intros p f. by rewrite lookup_empty.
  - intros f Hin. by apply elem_of_nil in Hin.
  - apply new_wf.
  - intros pg Hin. apply elem_of_replicate_inv in Hin. by subst.
Qed.

Lemma FlushPageLocked_inv p s :
  inv s → ∃ b s', FlushPageLocked p s = Some (b, s') ∧ inv s' ∧
                  pool_size_ s' = pool_size_ s ∧
                  page_table_ s' = page_table_ s.
Proof.
  intros Hinv. unfold FlushPageLocked.
  destruct (page_table_ s !! p) as [f|] eqn:Hl; [|by exists false, s].
  destruct (page_at_in_pool s f Hinv) as [pg Hpg]; [by eapply inv_table|].
  rewrite Hpg. simpl. destruct (is_dirty_ pg); simpl.
  - eexists _, _. split; [done|]. split; [|done].
    apply inv_set_page; [by apply inv_disk_call|]. simpl.
    apply (inv_pin _ Hinv). by eapply page_at_elem.
  - by exists true, s.
Qed.

Lemma GetNextAvailableFrame_inv s :
  inv s → ∃ f s', GetNextAvailableFrame s = Some (f, s') ∧ inv s' ∧
                  pool_size_ s' = pool_size_ s ∧
                  page_table_ s' = page_table_ s ∧
                  (f = -1 ∨ in_pool s f).
Proof.
  intros Hinv. unfold GetNextAvailableFrame.
  destruct (free_list_ s) as [|front rest] eqn:Hfl.
  - destruct (Victim_wf (replacer_ s) (-1) (inv_replacer _ Hinv))
      as [[Ht ->]|(f & r & -> & Hwf & Hf & Hr)]; simpl.
    + exists (-1), (set_replacer (replacer_ s) s). split; [done|].
      split; [|by auto]. apply inv_set_replacer; [done|apply Hinv|apply Hinv].
    + exists f, (set_replacer r s). split; [done|].
      split; [|split; [done|split; [done|]]].
      * apply inv_set_replacer; [done|done|]. intros x Hx. apply (inv_tracked _ Hinv).
        by apply Hr.
      * right. by apply (inv_tracked _ Hinv).
  - exists front, (set_free_list rest s). split; [done|].
    split; [|split; [done|split; [done|]]].
    + apply inv_set_free_list; [done|]. intros f Hf. apply (inv_free _ Hinv).
      rewrite Hfl. by right.
    + right. apply (inv_free _ Hinv). rewrite Hfl. by left.
Qed.

Lemma MaybeEvictPageFromFrame_inv f s :
  inv s → in_pool s f →
  ∃ b s', MaybeEvictPageFromFrame f s = Some (b, s') ∧ inv s' ∧
          pool_size_ s' = pool_size_ s.
Proof.
  intros Hinv Hf. unfold MaybeEvictPageFromFrame.
  destruct Hf as [Hlo Hhi]. rewrite decide_True by done.
  rewrite decide_True by lia.
  destruct (page_at_in_pool s f Hinv) as [pg Hpg]; [done|]. rewrite Hpg. simpl.
  case_decide; [|by exists false, s].
  destruct (FlushPageLocked_inv (page_id_ pg) s Hinv)
    as (b & s1 & -> & Hinv1 & Hps & Hpt). simpl.
  destruct (page_at_in_pool s1 f Hinv1) as [pg1 Hpg1].
  { unfold in_pool. rewrite Hps. done. }
  rewrite Hpg1. simpl. eexists _, _. split; [done|]. split; [|done].
  apply inv_set_page_table; [done|]. intros p f' Hl.
  apply lookup_delete_Some in Hl as [_ Hl]. by eapply inv_table.
Qed.

Lemma ResetPage_inv f p pc s :
  inv s → in_pool s f → 0 ≤ pc →
  ∃ s', ResetPage f p pc s = Some s' ∧ inv s' ∧
        pool_size_ s' = pool_size_ s ∧ page_table_ s' = page_table_ s ∧
        free_list_ s' = free_list_ s ∧ replacer_ s' = replacer_ s.
Proof.
  intros Hinv Hf Hpc. unfold ResetPage.
  destruct (page_at_in_pool s f Hinv Hf) as [pg ->]. simpl.
  eexists. split; [done|]. split; [|done]. by apply inv_set_page.
Qed.

Lemma Pin_inv f s :
  inv s → ∃ r, ClockReplacer.Pin f (replacer_ s) = Some r ∧ inv (set_replacer r s).
Proof.
  intros Hinv. unfold ClockReplacer.Pin.
  destruct (RemoveFrame_spec (replacer_ s) f (inv_replacer _ Hinv))
    as (r & -> & Hwf & _ & Hs).
  exists r. split; [done|]. apply inv_set_replacer; [done|done|].
  intros x Hx. apply (inv_tracked _ Hinv).
  by apply (shape_filter_tracked _ _ _ Hs) in Hx as [? _].
Qed.


Lemma FetchPageImpl_inv p s :
  inv s → pin_room (FetchPage p) s →
  ∃ r s', FetchPageImpl p s = Some (r, s') ∧ inv s' ∧
          pool_size_ s' = pool_size_ s.
Proof.
  intros Hinv Hroom. unfold FetchPageImpl.
  destruct (page_table_ s !! p) as [f|] eqn:Hl.
  - destruct (page_at_in_pool s f Hinv) as [pg Hpg]; [by eapply inv_table|].
    rewrite Hpg. simpl. rewrite decide_True by (by apply (Hroom f)).
    match goal with |- context [set_page f ?pg' s] =>
      assert (Hinv1 : inv (set_page f pg' s)) end.
    { apply inv_set_page; [done|]. simpl.
      pose proof (inv_pin _ Hinv pg (page_at_elem _ _ _ Hpg)). lia. }
    destruct (Pin_inv f _ Hinv1) as (r & Hr & Hinv2).
    simpl in Hr. rewrite Hr. simpl. by eexists _, _.
  - destruct (GetNextAvailableFrame_inv s Hinv)
      as (f & s1 & -> & Hinv1 & Hps1 & _ & Hf). simpl.
    case_decide as Hneg; [by eexists _, _|].
    destruct Hf as [?|Hf]; [done|].
    assert (Hf1 : in_pool s1 f) by (unfold in_pool; by rewrite Hps1).
    destruct (MaybeEvictPageFromFrame_inv f s1 Hinv1 Hf1)
      as (b & s2 & -> & Hinv2 & Hps2). simpl.
    assert (Hf2 : in_pool s2 f) by (unfold in_pool; by rewrite Hps2).
    match goal with |- context [ResetPage f p 1 ?s3] =>
      assert (Hinv3 : inv s3) end.
    { apply inv_set_page_table; [done|]. intros p' f' Hl'.
      apply lookup_insert_Some in Hl' as [[_ <-]|[_ Hl']]; [done|].
      by eapply inv_table. }
    destruct (ResetPage_inv f p 1 _ Hinv3 Hf2) as (s4 & -> & Hinv4 & Hps4 & _);
      [lia|]. simpl in Hps4. simpl.
    assert (Hf4 : in_pool s4 f) by (unfold in_pool; by rewrite Hps4).
    destruct (page_at_in_pool s4 f Hinv4 Hf4) as [pg Hpg]. rewrite Hpg. simpl.
    match goal with |- context [set_page f ?pg' (disk_call ?c s4)] =>
      assert (Hinv6 : inv (set_page f pg' (disk_call c s4))) end.
    { apply inv_set_page; [by apply inv_disk_call|]. simpl.
      apply (inv_pin _ Hinv4). by eapply page_at_elem. }
    destruct (Pin_inv f _ Hinv6) as (r & Hr & Hinv7).
    simpl in Hr. rewrite Hr. simpl. eexists _, _. split; [done|].
    split; [done|]. simpl. congruence.
Qed.

Lemma UnpinPageImpl_inv p d s :
  inv s → ∃ b s', UnpinPageImpl p d s = Some (b, s') ∧ inv s' ∧
                  pool_size_ s' = pool_size_ s.
Proof.
  intros Hinv. unfold UnpinPageImpl.
  destruct (page_table_ s !! p) as [f|] eqn:Hl; [|by eexists _, _].
  assert (Hf : in_pool s f) by (by eapply inv_table).
  destruct (page_at_in_pool s f Hinv Hf) as [pg Hpg]. rewrite Hpg. simpl.
  case_decide as Hpin; [by eexists _, _|].
  match goal with |- context [set_page f ?pg' s] =>
    assert (Hinv1 : inv (set_page f pg' s)) end.
  { apply inv_set_page; [done|]. simpl. lia. }
  case_decide; eexists _, _; (split; [done|]); (split; [|done]); [|done].
  apply inv_set_replacer; [done| |].
  - apply Unpin_wf. apply Hinv1.
  - intros x Hx. simpl in Hx. apply Unpin_tracked in Hx; [|apply Hinv].
    destruct Hx as [->|Hx]; [done|]. by apply (inv_tracked _ Hinv).
Qed.

Lemma NewPageImpl_inv s :
  inv s → ∃ r p s', NewPageImpl s = Some (r, p, s') ∧ inv s' ∧
                    pool_size_ s' = pool_size_ s.
Proof.
  intros Hinv. unfold NewPageImpl.
  match goal with |- context [GetNextAvailableFrame ?s0] =>
    assert (Hinv0 : inv s0) by (by apply inv_disk_call);
    destruct (GetNextAvailableFrame_inv s0 Hinv0)
      as (f & s1 & -> & Hinv1 & Hps1 & _ & Hf) end.
  simpl in Hps1, Hf. simpl.
  case_decide as Hneg; [by eexists _, _, _|].
  destruct Hf as [?|Hf]; [done|].
  assert (Hf1 : in_pool s1 f) by (unfold in_pool; by rewrite Hps1).
  destruct (MaybeEvictPageFromFrame_inv f s1 Hinv1 Hf1)
    as (b & s2 & -> & Hinv2 & Hps2). simpl.
  assert (Hf2 : in_pool s2 f) by (unfold in_pool; by rewrite Hps2).
  destruct (ResetPage_inv f (AllocatePage_result (disk_manager_ s)) 1 _ Hinv2 Hf2)
    as (s3 & -> & Hinv3 & Hps3 & _); [lia|]. simpl.
  assert (Hf3 : in_pool s3 f) by (unfold in_pool; by rewrite Hps3).
  eexists _, _, _. split; [done|]. split; [|simpl; congruence].
  apply inv_set_page_table; [done|]. intros p' f' Hl'.
  apply lookup_insert_Some in Hl' as [[_ <-]|[_ Hl']]; [done|].
  by eapply inv_table.
Qed.

Lemma DeletePageImpl_inv p s :
  inv s → ∃ b s', DeletePageImpl p s = Some (b, s') ∧ inv s' ∧
                  pool_size_ s' = pool_size_ s.
Proof.
  intros Hinv. unfold DeletePageImpl. simpl.
  pose proof (inv_disk_call s (CallDeallocatePage p) Hinv) as Hinv0.
  destruct (page_table_ s !! p) as [f|] eqn:Hl;
    [|eexists _, _; split; [done|]; split; [exact Hinv0|done]].
  assert (Hf : in_pool s f) by exact (inv_table _ Hinv _ _ Hl).
  destruct (page_at_in_pool _ f Hinv0 Hf) as [pg Hpg]. rewrite Hpg. simpl.
  case_bool_decide; simpl;
    [eexists _, _; split; [done|]; split; [exact Hinv0|done]|].
  match goal with |- context [ResetPage f _ _ ?s2] =>
    assert (Hinv2 : inv s2) end.
  { apply inv_set_page_table.
    - apply inv_set_free_list; [done|]. intros x Hx. simpl in Hx.
      apply elem_of_app in Hx as [Hx|Hx]; [by apply (inv_free _ Hinv)|].
      apply list_elem_of_singleton in Hx. by subst.
    - intros p' f' Hl'. simpl in Hl'.
      apply lookup_delete_Some in Hl' as [_ Hl']. exact (inv_table _ Hinv _ _ Hl'). }
  destruct (ResetPage_inv f INVALID_PAGE_ID ResetPage_default_pin_count _ Hinv2 Hf)
    as (s3 & -> & Hinv3 & Hps3 & _); [done|]. simpl.
  by eexists _, _.
Qed.

Lemma FlushPages_inv ps : ∀ s,
  inv s → ∃ s', FlushPages ps s = Some s' ∧ inv s' ∧
                pool_size_ s' = pool_size_ s.
Proof.
  induction ps as [|p ps IH]; intros s Hinv; simpl; [by eexists|].
  destruct (FlushPageLocked_inv p s Hinv) as (b & s1 & -> & Hinv1 & Hps & _).
  simpl. destruct (IH s1 Hinv1) as (s' & -> & Hinv' & Hps').
  eexists. split; [done|]. split; [done|]. congruence.
Qed.

(** On a state that satisfies the invariant an operation is defined, unless
    it is a [FetchPage] that would overflow a pin count, and it
    re-establishes the invariant. *)
Lemma step_inv o s :
  inv s → pin_room o s →
  ∃ s', step o s = Some s' ∧ inv s' ∧ pool_size_ s' = pool_size_ s.
Proof.
  intros Hinv Hroom. destruct o as [p| |p d|p|p|]; simpl.
  - destruct (FetchPageImpl_inv p s Hinv Hroom) as (r & s' & -> & ? & ?).
    by eexists.
  - destruct (NewPageImpl_inv s Hinv) as (r & p & s' & -> & ? & ?). by eexists.
  - destruct (UnpinPageImpl_inv p d s Hinv) as (r & s' & -> & ? & ?). by eexists.
  - unfold FlushPageImpl.
    destruct (FlushPageLocked_inv p s Hinv) as (r & s' & -> & ? & ? & _). by eexists.
  - destruct (DeletePageImpl_inv p s Hinv) as (r & s' & -> & ? & ?). by eexists.
  - apply FlushPages_inv. done.
Qed.

Lemma pin_room_dec o s : pin_room o s ∨ step o s = None.
Proof.
  destruct o as [p| |p d|p|p|]; try (by left). simpl. unfold FetchPageImpl.
  destruct (page_table_ s !! p) as [f|] eqn:Hl; [|left; by intros ? ? ?].
  destruct (page_at f s) as [pg|] eqn:Hpg; [|by right].
  cbn [mbind option_bind].
  destruct (decide (pin_count_ pg < INT_MAX)) as [Hlt|Hge]; [|by right].
  left. intros f' pg' [= <-] Hpg'. congruence.
Qed.

Lemma step_inv_Some o s s' :
  inv s → step o s = Some s' → inv s' ∧ pool_size_ s' = pool_size_ s.
Proof.
  intros Hinv Hstep. destruct (pin_room_dec o s) as [Hroom|Hnone]; [|congruence].
  destruct (step_inv o s Hinv Hroom) as (s1 & Hstep1 & Hinv1 & Hps).
  rewrite Hstep in Hstep1. by inversion Hstep1; subst.
Qed.

Lemma run_inv os : ∀ s s',
  inv s → run os s = Some s' → inv s' ∧ pool_size_ s' = pool_size_ s.
Proof.
  induction os as [|o os IH]; intros s s' Hinv Hrun; simpl in Hrun.
  - by inversion Hrun; subst.
  - destruct (step o s) as [s1|] eqn:Hstep; [|done]. simpl in Hrun.
    destruct (step_inv_Some _ _ _ Hinv Hstep) as [Hinv1 Hps1].
    destruct (IH _ _ Hinv1 Hrun) as [Hinv' Hps']. split; [done|congruence].
Qed.

Lemma reachable_inv s : reachable s → inv s.
Proof.
  intros (n & os & Hrun). by apply (run_inv os (new n) s (new_inv n)).
Qed.

End Manager.

Section ManagerClaims.
Import BufferPoolManager.
Context `{Config} `{DiskManager}.
Implicit Types (s : t) (f : Z) (pg : Page) (p : Z).

Lemma page_at_set_page s f f' pg :
  is_Some (page_at f s) →
  page_at f' (set_page f pg s) = if decide (f' = f) then Some pg else page_at f' s.
Proof.
  intros Hs. case_decide as Hf.
  - subst. by apply page_at_set_page_eq.
  - apply page_at_set_page_ne; [|done].
    unfold page_at in Hs. case_decide; [done|]. by destruct Hs.
Qed.

Lemma page_at_disk_call s f c : page_at f (disk_call c s) = page_at f s.
Proof. done. Qed.

(** C7.  [FlushPage] on a state that satisfies the invariant: it returns
    false exactly when the page is not in the page table; the page table,
    the free list, the replacer and the pool size are as before; every frame
    keeps its page id, pin count and buffer, and its dirty bit too unless it
    is the frame of the page, whose bit is then clear; the disk manager is
    called, with [WritePage] on the frame's buffer, only when that frame was
    dirty. *)
Theorem FlushPageImpl_frame s p :
  inv s →
  ∃ b s', FlushPageImpl p s = Some (b, s') ∧
    (b = false ↔ page_table_ s !! p = None) ∧
    pool_size_ s' = pool_size_ s ∧ page_table_ s' = page_table_ s ∧
    free_list_ s' = free_list_ s ∧ replacer_ s' = replacer_ s ∧
    length (pages_ s') = length (pages_ s) ∧
    (∀ f pg, page_at f s = Some pg →
       ∃ pg', page_at f s' = Some pg' ∧ page_id_ pg' = page_id_ pg ∧
              pin_count_ pg' = pin_count_ pg ∧ data_ pg' = data_ pg ∧
              (is_dirty_ pg' = is_dirty_ pg ∨
               (page_table_ s !! p = Some f ∧ is_dirty_ pg' = false))) ∧
    match page_table_ s !! p with
    | None => s' = s
    | Some f =>
        ∃ pg, page_at f s = Some pg ∧
              disk_manager_ s'
              = if is_dirty_ pg
                then CallWritePage p (data_ pg) :: disk_manager_ s
                else disk_manager_ s
    end.
Proof.
  intros Hinv. unfold FlushPageImpl, FlushPageLocked.
  destruct (page_table_ s !! p) as [f0|] eqn:Hl.
  - destruct (page_at_in_pool s f0 Hinv) as [pg0 Hpg0]; [by eapply inv_table|].
    rewrite Hpg0. cbn [mbind option_bind].
    destruct (is_dirty_ pg0) eqn:Hd; cbn [negb].
    + eexists _, _. split; [done|]. split; [done|]. do 4 (split; [done|]).
      split; [simpl; by rewrite length_insert|].
      split; [|exists pg0; by rewrite Hd].
      intros f pg Hpg. rewrite page_at_set_page by (exists pg0; exact Hpg0).
      case_decide as Hf.
      * subst f. rewrite Hpg0 in Hpg. inversion Hpg; subst pg.
        eexists. split; [done|]. simpl. do 3 (split; [done|]). by right.
      * exists pg. split; [exact Hpg|]. do 3 (split; [done|]). by left.
    + exists true, s. split; [done|]. split; [done|]. do 5 (split; [done|]).
      split; [|exists pg0; by rewrite Hd].
      intros f pg Hpg. exists pg. do 4 (split; [done|]). by left.
  - exists false, s. split; [done|]. split; [done|]. do 5 (split; [done|]).
    split; [|done]. intros f pg Hpg. exists pg. do 4 (split; [done|]). by left.
Qed.

(** C4.  [UnpinPage] on a state that satisfies the invariant.  A page that is
    not in the page table: the result is true and the state is as before.  A
    page whose frame has pin count zero: the result is false and the state
    is as before.  Otherwise the pin count is positive; the result is true,
    the frame has its pin count lowered by one and its dirty bit or-ed with
    [is_dirty], the other frames, the page table, the free list and the disk
    are as before, and the replacer is the one [Unpin] of the frame gives
    when the pin count has reached zero, in which case the frame is tracked,
    and is as before when it has not. *)
Theorem UnpinPageImpl_cases s p is_dirty :
  inv s →
  match page_table_ s !! p with
  | None => UnpinPageImpl p is_dirty s = Some (true, s)
  | Some f =>
      ∃ pg, page_at f s = Some pg ∧
        if decide (pin_count_ pg = 0)
        then UnpinPageImpl p is_dirty s = Some (false, s)
        else
          0 < pin_count_ pg ∧
          ∃ s', UnpinPageImpl p is_dirty s = Some (true, s') ∧
            page_at f s'
            = Some {| data_ := data_ pg; page_id_ := page_id_ pg;
                      pin_count_ := pin_count_ pg - 1;
                      is_dirty_ := is_dirty_ pg || is_dirty |} ∧
            (∀ f', f' ≠ f → page_at f' s' = page_at f' s) ∧
            page_table_ s' = page_table_ s ∧ free_list_ s' = free_list_ s ∧
            disk_manager_ s' = disk_manager_ s ∧
            pool_size_ s' = pool_size_ s ∧
            if decide (pin_count_ pg - 1 = 0)
            then replacer_ s' = ClockReplacer.Unpin f (replacer_ s) ∧
                 f ∈ ClockReplacer.tracked (replacer_ s')
            else replacer_ s' = replacer_ s
  end.
Proof.
  intros Hinv. unfold UnpinPageImpl.
  destruct (page_table_ s !! p) as [f|] eqn:Hl; [|done].
  assert (Hf : in_pool s f) by exact (inv_table _ Hinv _ _ Hl).
  destruct (page_at_in_pool s f Hinv Hf) as [pg Hpg].
  exists pg. split; [done|]. rewrite Hpg. simpl.
  pose proof (inv_pin _ Hinv pg (page_at_elem _ _ _ Hpg)) as Hpin.
  destruct (decide (pin_count_ pg = 0)) as [Hz|Hnz].
  - rewrite decide_True by lia. done.
  - rewrite decide_False by lia. split; [lia|].
    destruct (decide (pin_count_ pg - 1 = 0)) as [Hone|Hmore].
    + eexists. split; [done|]. simpl.
      split; [by apply page_at_set_page_eq|].
      split; [intros f' Hne; apply page_at_set_page_ne; [apply Hf|done]|].
      do 4 (split; [done|]). split; [done|].
      apply Unpin_tracked; [apply Hinv|]. by left.
    + eexists. split; [done|]. simpl.
      split; [by apply page_at_set_page_eq|].
      split; [intros f' Hne; apply page_at_set_page_ne; [apply Hf|done]|].
      done.
Qed.

(** C8.  [NewPage] when the free list is empty and [Victim] reports no
    victim: the result is null; the page id obtained from [AllocatePage] is
    stored through [page_id]; the state is the one on entry with that one
    call to [AllocatePage] added to the history of the disk manager, so no
    [DeallocatePage] follows it, and the page table, the free list, the
    frames and the replacer are as before. *)
Theorem NewPageImpl_exhausted s :
  free_list_ s = [] →
  ClockReplacer.Victim (-1) (replacer_ s) = Some (false, -1, replacer_ s) →
  ∃ s', NewPageImpl s = Some (None, AllocatePage_result (disk_manager_ s), s') ∧
        disk_manager_ s'
        = CallAllocatePage (AllocatePage_result (disk_manager_ s))
            :: disk_manager_ s ∧
        page_table_ s' = page_table_ s ∧ free_list_ s' = free_list_ s ∧
        pages_ s' = pages_ s ∧ replacer_ s' = replacer_ s ∧
        pool_size_ s' = pool_size_ s.
Proof.
  intros Hfl HV. unfold NewPageImpl, GetNextAvailableFrame. simpl.
  rewrite Hfl, HV. simpl. eexists. split; [done|]. done.
Qed.


Lemma ResetPage_eq f p pc s :
  is_Some (page_at f s) →
  ResetPage f p pc s
  = Some (set_page f {| data_ := ResetMemory; page_id_ := p;
                        pin_count_ := pc; is_dirty_ := false |} s).
Proof. intros [pg Hpg]. unfold ResetPage. by rewrite Hpg. Qed.

Lemma GetNextAvailableFrame_frames s f s1 :
  GetNextAvailableFrame s = Some (f, s1) →
  pages_ s1 = pages_ s ∧ page_table_ s1 = page_table_ s ∧
  disk_manager_ s1 = disk_manager_ s ∧ pool_size_ s1 = pool_size_ s.
Proof.
  unfold GetNextAvailableFrame. destruct (free_list_ s) as [|front rest].
  - destruct (ClockReplacer.Victim _ _) as [[[b f'] r]|]; simpl; [|done].
    by intros [= <- <-].
  - by intros [= <- <-].
Qed.

Lemma MaybeEvictPageFromFrame_invalid f s pg :
  in_pool s f → page_at f s = Some pg → page_id_ pg = INVALID_PAGE_ID →
  MaybeEvictPageFromFrame f s = Some (false, s).
Proof.
  intros [Hlo Hhi] Hpg Hid. unfold MaybeEvictPageFromFrame.
  rewrite decide_True by done. rewrite decide_True by lia.
  rewrite Hpg. simpl. by rewrite decide_False by tauto.
Qed.

(** [FetchPage] of a page that is not in the page table, when a frame is
    available: the frame is returned, pinned once, holding the page, and the
    page table maps the page to it and otherwise loses at most the entry
    that [MaybeEvictPageFromFrame] erases. *)
Lemma FetchPageImpl_miss s p f s1 :
  inv s → page_table_ s !! p = None →
  GetNextAvailableFrame s = Some (f, s1) → f ≠ -1 →
  ∃ b s2 s',
    MaybeEvictPageFromFrame f s1 = Some (b, s2) ∧
    FetchPageImpl p s = Some (Some f, s') ∧
    page_table_ s' = <[p := f]> (page_table_ s2) ∧
    ∃ pg, page_at f s' = Some pg ∧ page_id_ pg = p ∧ pin_count_ pg = 1 ∧
          is_dirty_ pg = false.
Proof.
  intros Hinv Hl HG Hf. unfold FetchPageImpl. rewrite Hl, HG. simpl.
  rewrite decide_False by done.
  destruct (GetNextAvailableFrame_inv s Hinv)
    as (f' & s1' & HG' & Hinv1 & Hps1 & _ & Hpool).
  rewrite HG in HG'. inversion HG'; subst f' s1'. clear HG'.
  destruct Hpool as [?|Hpool]; [done|].
  assert (Hf1 : in_pool s1 f) by (unfold in_pool; by rewrite Hps1).
  destruct (MaybeEvictPageFromFrame_inv f s1 Hinv1 Hf1)
    as (b & s2 & HM & Hinv2 & Hps2).
  exists b, s2. rewrite HM. cbn [mbind option_bind].
  assert (Hf2 : in_pool s2 f) by (unfold in_pool; by rewrite Hps2).
  set (s3 := set_page_table (<[p:=f]> (page_table_ s2)) s2).
  assert (Hinv3 : inv s3).
  { apply inv_set_page_table; [done|]. intros p' f' Hl'.
    apply lookup_insert_Some in Hl' as [[_ <-]|[_ Hl']]; [done|].
    exact (inv_table _ Hinv2 _ _ Hl'). }
  assert (Hp3 : is_Some (page_at f s3)) by (by apply page_at_in_pool).
  rewrite ResetPage_eq by done. cbn [mbind option_bind].
  rewrite page_at_set_page_eq by done. cbn [mbind option_bind].
  destruct (Pin_inv f s3 Hinv3) as (r & Hr & _).
  match goal with |- context [ClockReplacer.Pin f ?r0] =>
    change r0 with (replacer_ s3) end.
  rewrite Hr. cbn [mbind option_bind].
  eexists. split; [done|]. split; [done|]. split; [done|].
  eexists. split.
  { change (page_at f (set_replacer r ?s)) with (page_at f s).
    apply page_at_set_page_eq.
    change (page_at f (disk_call ?c ?s)) with (page_at f s).
    rewrite page_at_set_page_eq by done. by eexists. }
  done.
Qed.

(** C10.  [FetchPage] does not look at the page id it is given.  With
    [INVALID_PAGE_ID], not in the page table, and a frame available, it
    returns that frame pinned once, and the page table maps
    [INVALID_PAGE_ID] to it.  [MaybeEvictPageFromFrame] leaves the whole
    state as it is when the frame's page id is [INVALID_PAGE_ID].  So when
    the frame is taken again for a page [q], the page table maps both
    [INVALID_PAGE_ID] and [q] to it. *)
Theorem FetchPageImpl_invalid_page_id :
  (∀ s f s1,
     inv s → page_table_ s !! INVALID_PAGE_ID = None →
     GetNextAvailableFrame s = Some (f, s1) → f ≠ -1 →
     ∃ s', FetchPageImpl INVALID_PAGE_ID s = Some (Some f, s') ∧
           page_table_ s' !! INVALID_PAGE_ID = Some f ∧
           ∃ pg, page_at f s' = Some pg ∧ page_id_ pg = INVALID_PAGE_ID ∧
                 pin_count_ pg = 1) ∧
  (∀ s f pg,
     in_pool s f → page_at f s = Some pg → page_id_ pg = INVALID_PAGE_ID →
     MaybeEvictPageFromFrame f s = Some (false, s)) ∧
  (∀ s q f s1 pg,
     inv s → page_table_ s !! INVALID_PAGE_ID = Some f →
     page_at f s = Some pg → page_id_ pg = INVALID_PAGE_ID →
     page_table_ s !! q = None →
     GetNextAvailableFrame s = Some (f, s1) →
     ∃ s', FetchPageImpl q s = Some (Some f, s') ∧
           page_table_ s' !! INVALID_PAGE_ID = Some f ∧
           page_table_ s' !! q = Some f).
Proof.
  split; [|split].
  - intros s f s1 Hinv Hl HG Hf.
    destruct (FetchPageImpl_miss s _ f s1 Hinv Hl HG Hf)
      as (b & s2 & s' & _ & HF & Hpt & pg & Hpg & Hid & Hpin & _).
    exists s'. split; [done|]. split; [by rewrite Hpt, lookup_insert_eq|].
    by exists pg.
  - intros s f pg. apply MaybeEvictPageFromFrame_invalid.
  - intros s q f s1 pg Hinv Hinval Hpg Hid Hq HG.
    assert (Hpool : in_pool s f) by exact (inv_table _ Hinv _ _ Hinval).
    assert (Hf : f ≠ -1) by (destruct Hpool; lia).
    destruct (FetchPageImpl_miss s q f s1 Hinv Hq HG Hf)
      as (b & s2 & s' & HM & HF & Hpt & _).
    destruct (GetNextAvailableFrame_frames _ _ _ HG) as (Hpages & Htable & _ & Hps).
    rewrite (MaybeEvictPageFromFrame_invalid f s1 pg) in HM.
    + inversion HM; subst b s2. exists s'. split; [done|].
      rewrite Hpt, Htable. split; [|apply lookup_insert_eq].
      rewrite lookup_insert_ne; [done|]. intros ->. congruence.
    + unfold in_pool. by rewrite Hps.
    + unfold page_at in *. by rewrite Hpages.
    + done.
Qed.

End ManagerClaims.

Section DirtyBit.
Import BufferPoolManager.
Context `{Config} `{DiskManager}.
Implicit Types (s : t) (f : Z) (pg : Page) (p : Z).

Lemma extends_refl s : extends s s.
Proof. by exists []. Qed.

Lemma extends_trans s1 s2 s3 : extends s1 s2 → extends s2 s3 → extends s1 s3.
Proof.
  intros [c1 H1] [c2 H2]. exists (c2 ++ c1). by rewrite H2, H1, app_assoc.
Qed.

Lemma flushed_extends s1 s2 s3 pg pg' :
  flushed s1 s2 pg pg' → extends s2 s3 → flushed s1 s3 pg pg'.
Proof.
  intros [Hpg (p & c1 & H1 & Hin)] [c2 H2]. split; [done|].
  exists p, (c2 ++ c1). split; [by rewrite H2, H1, app_assoc|].
  apply elem_of_app. by right.
Qed.

Lemma extends_flushed s1 s2 s3 pg pg' :
  extends s1 s2 → flushed s2 s3 pg pg' → flushed s1 s3 pg pg'.
Proof.
  intros [c1 H1] [Hpg (p & c2 & H2 & Hin)]. split; [done|].
  exists p, (c2 ++ c1). split; [by rewrite H2, H1, app_assoc|].
  apply elem_of_app. by left.
Qed.

(** What [FlushPageLocked] does to a frame: nothing, or, when it is the
    frame of the page and is dirty, a write of its buffer and the clearing
    of its dirty bit. *)
Lemma FlushPageLocked_frame p s b s' f pg :
  FlushPageLocked p s = Some (b, s') → page_at f s = Some pg →
  extends s s' ∧ page_table_ s' = page_table_ s ∧
  (page_at f s' = Some pg ∨
   (page_table_ s !! p = Some f ∧ is_dirty_ pg = true ∧
    page_at f s' = Some (clean pg) ∧ flushed s s' pg (clean pg))).
Proof.
  unfold FlushPageLocked. intros HF Hpg.
  destruct (page_table_ s !! p) as [f0|] eqn:Hl.
  2:{ inversion HF; subst. split; [apply extends_refl|]. split; [done|]. by left. }
  destruct (page_at f0 s) as [pg0|] eqn:Hpg0; [|done]. cbn [mbind option_bind] in HF.
  destruct (is_dirty_ pg0) eqn:Hd; cbn [negb] in HF; inversion HF; subst; clear HF.
  - split; [by exists [CallWritePage p (data_ pg0)]|]. split; [done|].
    rewrite page_at_set_page by (by exists pg0). case_decide as Hf.
    + subst f0. right. change (page_at f (disk_call ?c s)) with (page_at f s) in Hpg0.
      rewrite Hpg in Hpg0. inversion Hpg0; subst pg0. split; [done|]. split; [done|].
      split; [done|]. split; [done|].
      exists p, [CallWritePage p (data_ pg)]. split; [done|]. by left.
    + by left.
  - split; [apply extends_refl|]. split; [done|]. by left.
Qed.

Lemma clean_not_dirty pg : is_dirty_ (clean pg) = true → False.
Proof. done. Qed.

Lemma FlushPages_frame ps : ∀ s s' f pg,
  FlushPages ps s = Some s' → page_at f s = Some pg →
  extends s s' ∧
  (page_at f s' = Some pg ∨
   (is_dirty_ pg = true ∧ page_at f s' = Some (clean pg) ∧
    flushed s s' pg (clean pg))).
Proof.
  induction ps as [|p ps IH]; intros s s' f pg HF Hpg; simpl in HF.
  - inversion HF; subst. split; [apply extends_refl|]. by left.
  - destruct (FlushPageLocked p s) as [[b s1]|] eqn:H1; [|done].
    cbn [mbind option_bind] in HF.
    destruct (FlushPageLocked_frame _ _ _ _ _ _ H1 Hpg) as (He1 & _ & Hc).
    destruct Hc as [Hkeep|(_ & Hd & Hcl & Hfl)].
    + destruct (IH _ _ _ _ HF Hkeep) as (He2 & Hc2).
      split; [by eapply extends_trans|].
      destruct Hc2 as [?|(? & ? & ?)]; [by left|right].
      split; [done|]. split; [done|]. by eapply extends_flushed.
    + destruct (IH _ _ _ _ HF Hcl) as (He2 & Hc2).
      split; [by eapply extends_trans|].
      destruct Hc2 as [?|(Hd' & _)]; [|by destruct (clean_not_dirty pg)].
      right. split; [done|]. split; [done|]. by eapply flushed_extends.
Qed.










End DirtyBit.

(** ** [DeletePage], [NewPage] and the replacer *)

Section ReplacerUpkeep.
Import BufferPoolManager.
Context `{Config} `{DiskManager}.
Implicit Types (s : t) (f : Z) (pg : Page) (p : Z).

(** [DeletePage] never touches the replacer: a frame it frees stays tracked
    if it was. *)
Lemma DeletePageImpl_replacer p s b s' :
  DeletePageImpl p s = Some (b, s') → replacer_ s' = replacer_ s.
Proof.
  unfold DeletePageImpl. intros HD.
  change (page_table_ (disk_call ?c s)) with (page_table_ s) in HD.
  destruct (page_table_ s !! p) as [f|]; [|by inversion HD].
  destruct (page_at f _) as [pg|]; [|done]. cbn [mbind option_bind] in HD.
  case_bool_decide; [by inversion HD|].
  unfold ResetPage in HD. destruct (page_at f _) as [pg2|]; [|done].
  cbn [mbind option_bind] in HD. by inversion HD.
Qed.

(** [NewPage] served from the free list leaves the replacer as it is: the
    frame it pins stays tracked if it was. *)
Lemma NewPageImpl_replacer s front rest r q s' :
  free_list_ s = front :: rest →
  NewPageImpl s = Some (r, q, s') → replacer_ s' = replacer_ s.
Proof.
  unfold NewPageImpl, GetNextAvailableFrame. intros Hfl HN.
  change (free_list_ (disk_call ?c s)) with (free_list_ s) in HN.
  rewrite Hfl in HN. cbn [mbind option_bind] in HN.
  case_decide; [by inversion HN|].
  destruct (MaybeEvictPageFromFrame _ _) as [[b s2]|] eqn:HM; [|done].
  cbn [mbind option_bind] in HN.
  assert (Hr2 : replacer_ s2 = replacer_ s).
  { unfold MaybeEvictPageFromFrame in HM.
    repeat case_decide; try done.
    destruct (page_at front _) as [pg|]; [|done]. cbn [mbind option_bind] in HM.
    case_decide; [|by inversion HM].
    destruct (FlushPageLocked _ _) as [[b1 s1]|] eqn:HF; [|done].
    cbn [mbind option_bind] in HM.
    destruct (page_at front s1) as [pg1|]; [|done]. cbn [mbind option_bind] in HM.
    inversion HM; subst. simpl.
    unfold FlushPageLocked in HF.
    destruct (page_table_ _ !! _) as [f1|]; [|by inversion HF].
    destruct (page_at f1 _) as [pgf|]; [|done]. cbn [mbind option_bind] in HF.
    destruct (is_dirty_ pgf); by inversion HF. }
  unfold ResetPage in HN. destruct (page_at front s2) as [pg2|]; [|done].
  cbn [mbind option_bind] in HN. inversion HN; subst. done.
Qed.

(** [DeletePage] of a resident page nobody pins: the delete is performed and
    the result is false. *)
Lemma DeletePageImpl_unpinned p s f pg :
  page_table_ s !! p = Some f → page_at f s = Some pg → pin_count_ pg = 0 →
  ∃ s', DeletePageImpl p s = Some (false, s') ∧
        free_list_ s' = free_list_ s ++ [f] ∧
        page_table_ s' = delete p (page_table_ s) ∧
        page_at f s' = Some {| data_ := ResetMemory;
                               page_id_ := INVALID_PAGE_ID;
                               pin_count_ := ResetPage_default_pin_count;
                               is_dirty_ := false |}.
Proof.
  intros Hl Hpg Hpin. unfold DeletePageImpl. cbv zeta.
  change (page_table_ (disk_call ?c s)) with (page_table_ s).
  rewrite Hl. change (page_at f (disk_call ?c s)) with (page_at f s).
  rewrite Hpg. cbn [mbind option_bind].
  rewrite bool_decide_eq_false_2 by (by rewrite Hpin; intros ?).
  rewrite ResetPage_eq by (by exists pg). eexists. split; [done|].
  split; [done|]. split; [done|]. apply page_at_set_page_eq. by exists pg.
Qed.

End ReplacerUpkeep.

(** * Further properties of the replacer *)

Section ReplacerMore.
Import ClockReplacer.
Implicit Types (l A B T X : list (nat * FrameState)) (it h : nat) (fs : FrameState)
  (st : t) (fid : Z).

Lemma tracked_shape st : tracked st = (shape (frame_list_ st)).*2.
Proof. unfold tracked, shape. by rewrite <- !list_fmap_compose. Qed.

Lemma filter_shape_tracked fid (sh : list (nat * Z)) :
  (filter (λ x : nat * Z, x.2 ≠ fid) sh).*2 = filter (λ f, f ≠ fid) sh.*2.
Proof.
  induction sh as [|[a f] sh IH]; [done|]. rewrite fmap_cons.
  destruct (decide (f = fid)) as [->|Hne].
  - rewrite !filter_cons_False by (simpl; tauto). done.
  - rewrite !filter_cons_True by done. rewrite fmap_cons. by rewrite IH.
Qed.

Lemma wf_NoDup_tracked st : wf st → NoDup (tracked st).
Proof.
  intros Hwf. rewrite tracked_shape.
  apply NoDup_fmap_2_strong.
  - intros [a f] [a' f'] Hin Hin' Heq. simpl in Heq. subst f'.
    apply (wf_map _ Hwf) in Hin, Hin'. congruence.
  - apply (NoDup_fmap_1 fst). replace ((shape (frame_list_ st)).*1) with (ids (frame_list_ st)).
    + apply (wf_ids _ Hwf).
    + unfold ids, shape. by rewrite <- list_fmap_compose.
Qed.

Lemma deref_is_Some h l : h ∈ ids l → is_Some (deref h l).
Proof.
  intros Hin. destruct (ids_split h l Hin) as (A & fs & B & -> & HnA).
  rewrite deref_skip by done. rewrite deref_here. by eexists.
Qed.

(** X1.  Whatever calls of [Victim], [Pin] and [Unpin] a replacer receives
    after its construction, each is defined: no iterator that designates no
    node is advanced, erased or dereferenced.  In the state reached no frame
    id is tracked twice, the index holds exactly the tracked frame ids, and
    the hand is [end()] exactly when nothing is tracked and designates a
    node of the list otherwise. *)
Theorem ClockReplacer_calls_defined num_pages cs :
  ∃ st, do_calls cs (new num_pages) = Some st ∧
        NoDup (tracked st) ∧
        (∀ fid, fid ∈ tracked st ↔ is_Some (frame_map_ st !! fid)) ∧
        (clock_hand_ st = None ↔ tracked st = []) ∧
        (∀ h, clock_hand_ st = Some h → is_Some (deref h (frame_list_ st))).
Proof.
  destruct (do_calls_wf cs (new num_pages) (new_wf num_pages)) as (st & Hrun & Hwf).
  exists st. split; [done|]. split; [by apply wf_NoDup_tracked|].
  split; [intros fid; by apply wf_tracked_lookup|]. split.
  - rewrite (wf_hand_none _ Hwf). unfold tracked.
    destruct (frame_list_ st); split; done.
  - intros h Hh. apply deref_is_Some. by apply (wf_hand_some _ Hwf).
Qed.

Lemma head_split_nil A it fs B h fs0 B0 :
  A ++ (it, fs) :: B = (h, fs0) :: B0 → it ∉ ids A → h = it → A = [].
Proof.
  intros Heq HnA ->. destruct A as [|[a fa] A]; [done|].
  inversion Heq; subst. destruct HnA. rewrite ids_cons. by left.
Qed.

Lemma RemoveFrame_tracked_split st fid it :
  wf st → frame_map_ st !! fid = Some it →
  ∃ A fs B,
    frame_list_ st = A ++ (it, fs) :: B ∧ frame_id fs = fid ∧ ¬ (it ∈ ids A) ∧
    RemoveFrame fid st =
    Some {| frame_map_ := delete fid (frame_map_ st);
            frame_list_ := A ++ B;
            clock_hand_ :=
              match A ++ B with
              | [] => None
              | _ :: _ =>
                  if decide (Some it = clock_hand_ st)
                  then match B with [] => begin A | b :: _ => Some b.1 end
                  else clock_hand_ st
              end |}.
Proof.
  intros Hwf Hl.
  destruct (RemoveFrame_tracked _ _ _ Hwf Hl) as (A & fs & B & El & Hfid & HR).
  exists A, fs, B. split; [done|]. split; [done|]. split; [|done].
  pose proof (wf_ids _ Hwf) as Hnd. rewrite El in Hnd.
  apply (NoDup_ids_app_l _ _ Hnd). rewrite ids_cons. by left.
Qed.

(** X2.  [Pin] on a well-formed state is defined and removes the descriptor
    of the frame and nothing else: the other tracked frames stay, in order;
    [Size] drops by one exactly when the frame was tracked; the hand stays
    where it is unless it was on the descriptor removed; and a second [Pin]
    of the same frame changes nothing. *)
Theorem Pin_removes_exactly st fid :
  wf st →
  ∃ st', Pin fid st = Some st' ∧ wf st' ∧
         tracked st' = filter (λ f, f ≠ fid) (tracked st) ∧
         Size st' = (if decide (fid ∈ tracked st)
                     then pred (Size st) else Size st) ∧
         (∀ h, clock_hand_ st = Some h → frame_map_ st !! fid ≠ Some h →
               clock_hand_ st' = Some h) ∧
         Pin fid st' = Some st'.
Proof.
  intros Hwf. unfold Pin.
  destruct (RemoveFrame_spec st fid Hwf) as (st' & HR & Hwf' & Hm & Hs).
  exists st'. split; [done|]. split; [done|].
  assert (Ht : tracked st' = filter (λ f, f ≠ fid) (tracked st)).
  { by rewrite !tracked_shape, Hs, filter_shape_tracked. }
  split; [done|].
  assert (Hgone : frame_map_ st' !! fid = None) by (by rewrite Hm, lookup_delete_eq).
  split; [|split; [|by apply RemoveFrame_untracked]].
  - rewrite !Size_tracked, Ht. case_decide as Hin.
    + pose proof (wf_NoDup_tracked _ Hwf) as Hnd.
      apply list_elem_of_split in Hin as (l1 & l2 & El). rewrite El in Hnd |- *.
      apply NoDup_app in Hnd as (_ & Hd & Hnd2). apply NoDup_cons in Hnd2 as [Hn2 _].
      rewrite filter_app, filter_cons_False by tauto.
      assert (Hf : ∀ l : list Z, fid ∉ l → filter (λ f, f ≠ fid) l = l).
      { clear. induction l as [|x l IH]; intros Hn; [done|].
        apply not_elem_of_cons in Hn as [Hne Hn].
        rewrite filter_cons_True by done. by rewrite IH. }
      rewrite !Hf; [|done|].
      * rewrite !length_app. simpl. lia.
      * intros Hin1. apply (Hd _ Hin1). by left.
    + f_equal. clear -Hin. induction (tracked st) as [|x l IH]; [done|].
      apply not_elem_of_cons in Hin as [Hne Hin].
      rewrite filter_cons_True by done. by rewrite IH.
  - intros h Hh Hne. destruct (frame_map_ st !! fid) as [it|] eqn:Hl.
    + destruct (RemoveFrame_tracked_split _ _ _ Hwf Hl)
        as (A & fs & B & El & _ & HnA & HR').
      rewrite HR in HR'. inversion HR'; subst st'; clear HR'. simpl.
      rewrite decide_False by (rewrite Hh; congruence).
      destruct (A ++ B) eqn:EAB; [|done].
      apply app_eq_nil in EAB as [-> ->].
      pose proof (wf_hand_some _ Hwf _ Hh) as Hin. rewrite El in Hin.
      simpl in Hin. apply list_elem_of_singleton in Hin. congruence.
    + rewrite RemoveFrame_untracked in HR by done. by inversion HR; subst.
Qed.

(** X3.  [Unpin] is idempotent, in every state: a second [Unpin] of the same
    frame finds it in the index and returns at once, so the descriptor is
    not duplicated and its reference bit is not set again. *)
Theorem Unpin_idempotent st fid : Unpin fid (Unpin fid st) = Unpin fid st.
Proof.
  destruct (frame_map_ st !! fid) as [it|] eqn:Hl.
  - rewrite (Unpin_tracked_eq st) by (by eexists). apply Unpin_tracked_eq. by eexists.
  - apply Unpin_tracked_eq. rewrite Unpin_untracked_eq by done. simpl.
    rewrite lookup_insert_eq. by eexists.
Qed.

(** X4.  On a well-formed state, [Unpin] of a frame that is not tracked
    followed by [Pin] of the same frame gives back the state exactly: list,
    index and hand. *)
Theorem Pin_Unpin_round_trip st fid :
  wf st → frame_map_ st !! fid = None → Pin fid (Unpin fid st) = Some st.
Proof.
  intros Hwf Hl. rewrite Unpin_untracked_eq by done.
  unfold Pin, RemoveFrame. cbn [frame_map_ frame_list_ clock_hand_].
  rewrite lookup_insert_eq.
  pose proof (fresh_not_in (frame_list_ st)) as Hfresh.
  destruct st as [m l hd]. cbn [frame_map_ frame_list_ clock_hand_] in *.
  destruct l as [|nd l].
  - assert (hd = None) as -> by (by apply (wf_hand_none _ Hwf)).
    unfold NextClockHand. simpl. by rewrite delete_insert_id.
  - assert (Hne : Some (fresh (nd :: l)) ≠ hd).
    { intros <-. apply Hfresh. by apply (wf_hand_some _ Hwf). }
    rewrite decide_False by done. cbn [mbind option_bind frame_list_ frame_map_ clock_hand_].
    rewrite erase_skip, erase_here by exact Hfresh.
    cbn [fmap option_fmap option_map mbind option_bind]. rewrite app_nil_r.
    rewrite delete_insert_id by done.
    rewrite decide_False by done. done.
Qed.

End ReplacerMore.

Section Fifo.
Import ClockReplacer.

Implicit Types (l A B T X : list (nat * FrameState)) (it h : nat) (fs : FrameState)
  (st : t) (fid : Z).

(** A replacer whose hand is on the first descriptor and whose reference
    bits are all set, or all clear. *)
Lemma Unpin_queue st fid :
  wf st → frame_map_ st !! fid = None →
  clock_hand_ st = begin (frame_list_ st) →
  Forall referenced (frame_list_ st) →
  clock_hand_ (Unpin fid st) = begin (frame_list_ (Unpin fid st)) ∧
  Forall referenced (frame_list_ (Unpin fid st)).
Proof.
  intros Hwf Hl Hh Hall. rewrite Unpin_untracked_eq by done.
  cbn [frame_list_ clock_hand_]. split.
  - destruct (frame_list_ st) as [|nd l]; [done|]. by rewrite Hh.
  - apply Forall_app. split; [done|]. by apply Forall_singleton.
Qed.

Lemma Unpin_all_queue fids : ∀ st,
  wf st → NoDup fids → (∀ f, f ∈ fids → f ∉ tracked st) →
  clock_hand_ st = begin (frame_list_ st) →
  Forall referenced (frame_list_ st) →
  ∃ st', do_calls (CallUnpin <$> fids) st = Some st' ∧ wf st' ∧
         tracked st' = tracked st ++ fids ∧
         clock_hand_ st' = begin (frame_list_ st') ∧
         Forall referenced (frame_list_ st').
Proof.
  induction fids as [|f fids IH]; intros st Hwf Hnd Hfresh Hh Hall.
  - exists st. by rewrite app_nil_r.
  - apply NoDup_cons in Hnd as [Hf Hnd].
    assert (Hl : frame_map_ st !! f = None).
    { destruct (frame_map_ st !! f) eqn:E; [|done].
      destruct (Hfresh f); [by left|]. apply wf_tracked_lookup; [done|]. by eexists. }
    assert (Ht : tracked (Unpin f st) = tracked st ++ [f]).
    { apply Unpin_untracked_list; [done|]. apply Hfresh. by left. }
    destruct (Unpin_queue st f Hwf Hl Hh Hall) as [Hh1 Hall1].
    destruct (IH (Unpin f st)) as (st' & Hrun & Hwf' & Ht' & Hh' & Hall');
      [by apply Unpin_wf|done| |done|done|].
    + intros x Hx. rewrite Ht, not_elem_of_app. split.
      * apply Hfresh. by right.
      * rewrite list_elem_of_singleton. intros ->. done.
    + exists st'. split; [exact Hrun|]. split; [done|].
      split; [by rewrite Ht', Ht, <- app_assoc|done].
Qed.

Lemma sweep_queue m h fs B :
  NoDup (ids ((h, fs) :: B)) →
  Forall referenced ((h, fs) :: B) ∨ Forall (λ nd, ¬ referenced nd) ((h, fs) :: B) →
  ∃ l1, sweep (S (length ((h, fs) :: B)))
          {| frame_map_ := m; frame_list_ := (h, fs) :: B; clock_hand_ := Some h |}
        = Some {| frame_map_ := m; frame_list_ := l1; clock_hand_ := Some h |} ∧
        l1 = clear_bits ((h, fs) :: B).
Proof.
  intros Hnd [Hall|Hnone].
  - exists (clear_bits ((h, fs) :: B)). split; [|done].
    pose proof (sweep_pass m ((h, fs) :: B) [] [] 1) as Hp.
    rewrite !app_nil_r in Hp. simpl app in Hp.
    replace (S (length ((h, fs) :: B))) with (length ((h, fs) :: B) + 1)%nat by lia.
    etrans; [apply Hp; [done|done|done]|].
    apply (sweep_stop _ _ h {| frame_id := frame_id fs; reference_bit := false |});
      [done| |done].
    simpl. by rewrite decide_True.
  - exists ((h, fs) :: B). split.
    + apply (sweep_stop _ _ h fs); [done| |].
      * simpl. by rewrite decide_True.
      * apply Forall_cons in Hnone as [Hfs _]. unfold referenced in Hfs. simpl in Hfs.
        by destruct (reference_bit fs).
    + unfold clear_bits. symmetry. apply list_eq. intros i.
      rewrite list_lookup_fmap.
      destruct (((h, fs) :: B) !! i) as [[a [f b]]|] eqn:E; [|done]. simpl.
      apply list_elem_of_lookup_2 in E.
      rewrite Forall_forall in Hnone. specialize (Hnone _ E).
      unfold referenced in Hnone. simpl in Hnone. unfold clear_bit. simpl.
      by destruct b.
Qed.


Lemma Victim_queue st out h fs B :
  wf st → frame_list_ st = (h, fs) :: B → clock_hand_ st = Some h →
  Forall referenced (frame_list_ st) ∨
  Forall (λ nd, ¬ referenced nd) (frame_list_ st) →
  ∃ st', Victim out st = Some (true, frame_id fs, st') ∧ wf st' ∧
         frame_list_ st' = clear_bits B ∧
         clock_hand_ st' = begin (clear_bits B).
Proof.
  intros Hwf El Hh Hbits. destruct st as [m l hd].
  cbn [frame_map_ frame_list_ clock_hand_] in *. subst l hd.
  pose proof (wf_ids _ Hwf) as Hnd. cbn [frame_list_] in Hnd.
  destruct (sweep_queue m h fs B Hnd Hbits) as (l1 & Hsweep & ->).
  set (st1 := {| frame_map_ := m; frame_list_ := clear_bits ((h, fs) :: B);
                 clock_hand_ := Some h |}).
  assert (Hwf1 : wf st1).
  { eapply wf_shape; [exact Hwf|apply shape_clear_bits|].
    rewrite ids_clear_bits, ids_cons. by left. }
  assert (Hl : frame_map_ st1 !! frame_id fs = Some h).
  { apply (wf_map _ Hwf). cbn [frame_list_].
    change (shape ((h, fs) :: B)) with ((h, frame_id fs) :: shape B). by left. }
  destruct (RemoveFrame_tracked_split st1 _ _ Hwf1 Hl)
    as (A & fs' & B' & El1 & _ & HnA & HR).
  assert (A = []) as ->.
  { eapply (head_split_nil A h fs' B'); [|done|done]. symmetry. exact El1. }
  cbn [frame_list_ st1 app] in El1.
  change (clear_bits ((h, fs) :: B)) with (clear_bit (h, fs) :: clear_bits B) in El1.
  inversion El1 as [[Hfs' HB']]. clear El1.
  destruct (RemoveFrame_spec st1 (frame_id fs) Hwf1) as (st' & HR' & Hwf' & _).
  exists st'. rewrite HR in HR'. inversion HR'; subst st'; clear HR'.
  split; [|split; [done|split]].
  - unfold Victim, Victim_fuel, Size. cbn [clock_hand_ frame_list_].
    rewrite Hsweep. cbn [mbind option_bind clock_hand_ frame_list_].
    change (deref h (clear_bits ((h, fs) :: B)))
      with (deref h (clear_bit (h, fs) :: clear_bits B)).
    unfold clear_bit at 1. cbn [fst snd]. rewrite deref_here.
    cbn [mbind option_bind frame_id]. fold st1. rewrite HR. done.
  - cbn [frame_list_ app]. by rewrite <- HB'.
  - cbn [clock_hand_ app st1]. rewrite <- HB'.
    destruct (clear_bits B) as [|b Bc]; [done|]. by rewrite decide_True.
Qed.

Lemma clear_bits_unreferenced l : Forall (λ nd, ¬ referenced nd) (clear_bits l).
Proof.
  unfold clear_bits. apply Forall_fmap, Forall_forall. intros [a f] _.
  unfold referenced. simpl. done.
Qed.

Lemma tracked_clear_bits m l hd m' hd' :
  tracked {| frame_map_ := m; frame_list_ := clear_bits l; clock_hand_ := hd |}
  = tracked {| frame_map_ := m'; frame_list_ := l; clock_hand_ := hd' |}.
Proof.
  unfold tracked. cbn [frame_list_]. apply shape_tracked, shape_clear_bits.
Qed.

Lemma Victims_queue k : ∀ st,
  wf st → length (frame_list_ st) = k →
  clock_hand_ st = begin (frame_list_ st) →
  Forall referenced (frame_list_ st) ∨
  Forall (λ nd, ¬ referenced nd) (frame_list_ st) →
  ∃ st', Victims k st = Some (tracked st, st') ∧ wf st' ∧ frame_list_ st' = [].
Proof.
  induction k as [|k IH]; intros st Hwf Hlen Hh Hbits.
  - exists st. apply length_zero_iff_nil in Hlen. unfold tracked. rewrite Hlen.
    done.
  - destruct (frame_list_ st) as [|[h fs] B] eqn:El; [done|].
    destruct (Victim_queue st (-1) h fs B Hwf El Hh) as (st1 & HV & Hwf1 & El1 & Hh1).
    { by rewrite El. }
    destruct (IH st1) as (st' & HVs & Hwf' & El'); [done| | | |].
    + rewrite El1. unfold clear_bits. rewrite length_fmap. simpl in Hlen. lia.
    + by rewrite El1.
    + right. rewrite El1. apply clear_bits_unreferenced.
    + exists st'. split; [|done]. cbn [Victims]. rewrite HV.
      cbn [mbind option_bind]. rewrite HVs. cbn [mbind option_bind].
      do 2 f_equal. unfold tracked. rewrite El, El1. cbn [fmap list_fmap snd].
      f_equal. apply shape_tracked, shape_clear_bits.
Qed.

Lemma wf_empty st : wf st → frame_list_ st = [] → ∀ n, st = new n.
Proof.
  intros Hwf El n. destruct st as [m l hd]. cbn [frame_list_] in El. subst l.
  unfold new. f_equal.
  - apply map_eq. intros fid. rewrite lookup_empty.
    destruct (m !! fid) as [it|] eqn:E; [|done].
    apply (wf_map _ Hwf) in E. by apply elem_of_nil in E.
  - by apply (wf_hand_none _ Hwf).
Qed.

(** X5.  Eviction order without re-reference is first in, first out: after
    [Unpin] of distinct frames on a new replacer, as many calls of [Victim]
    hand the frames out in the order they were unpinned, and leave the
    replacer as it was constructed. *)
Theorem Victim_fifo num_pages fids :
  NoDup fids →
  ∃ st, do_calls (CallUnpin <$> fids) (new num_pages) = Some st ∧
        Victims (length fids) st = Some (fids, new num_pages).
Proof.
  intros Hnd.
  destruct (Unpin_all_queue fids (new num_pages)) as (st & Hrun & Hwf & Ht & Hh & Hall);
    [apply new_wf|done| |done|done|].
  { intros f _ Hin. by apply elem_of_nil in Hin. }
  exists st. split; [done|].
  change (tracked (new num_pages)) with (@nil Z) in Ht. rewrite app_nil_l in Ht.
  destruct (Victims_queue (length fids) st) as (st' & HVs & Hwf' & El'); [done| |done|by left|].
  { rewrite <- Ht. unfold tracked. by rewrite !length_fmap. }
  rewrite HVs, Ht. do 2 f_equal. by apply wf_empty.
Qed.

End Fifo.

(** * Further properties of the manager *)

Section ManagerMore.
Import BufferPoolManager.
Context `{Config} `{DiskManager}.
Implicit Types (s : t) (f : Z) (pg : Page) (p : Z).

(** *** A bound on the pin counts *)

Lemma pins_le_mono k k' s : pins_le k s → k ≤ k' → pins_le k' s.
Proof. intros Hk Hle pg Hin. specialize (Hk pg Hin). lia. Qed.

Lemma pins_le_page_at k f s pg :
  pins_le k s → page_at f s = Some pg → pin_count_ pg ≤ k.
Proof. intros Hk Hpg. apply Hk. by eapply page_at_elem. Qed.

Lemma pins_le_set_page k f pg s :
  pins_le k s → pin_count_ pg ≤ k → pins_le k (set_page f pg s).
Proof.
  intros Hk Hpin pg' Hin. simpl in Hin.
  apply list_elem_of_lookup in Hin as [i Hi].
  destruct (decide (i = Z.to_nat f)) as [->|Hne].
  - destruct (decide (Z.to_nat f < length (pages_ s))%nat).
    + rewrite list_lookup_insert_eq in Hi by done. by inversion Hi; subst.
    + rewrite list_insert_ge in Hi by lia. apply Hk.
      by eapply list_elem_of_lookup_2.
  - rewrite list_lookup_insert_ne in Hi by done. apply Hk.
    by eapply list_elem_of_lookup_2.
Qed.

Lemma pins_le_pages k s s' : pages_ s' = pages_ s → pins_le k s → pins_le k s'.
Proof. unfold pins_le. by intros ->. Qed.

Lemma new_pins_le n : pins_le 0 (new n).
Proof.
  intros pg Hin. simpl in Hin. apply elem_of_replicate in Hin as [-> _]. done.
Qed.

Lemma FlushPageLocked_pins k p s b s' :
  FlushPageLocked p s = Some (b, s') → pins_le k s → pins_le k s'.
Proof.
  unfold FlushPageLocked. intros HF Hk.
  destruct (page_table_ s !! p) as [f|]; [|by inversion HF; subst].
  destruct (page_at f s) as [pg|] eqn:Hpg; [|done]. cbn [mbind option_bind] in HF.
  destruct (is_dirty_ pg); cbn [negb] in HF; inversion HF; subst; [|done].
  apply pins_le_set_page; [done|]. simpl. by eapply pins_le_page_at.
Qed.

Lemma FlushPages_pins k ps : ∀ s s',
  FlushPages ps s = Some s' → pins_le k s → pins_le k s'.
Proof.
  induction ps as [|p ps IH]; intros s s' HF Hk; simpl in HF.
  - by inversion HF; subst.
  - destruct (FlushPageLocked p s) as [[b s1]|] eqn:HFl; [|done]. simpl in HF.
    eapply IH; [exact HF|]. by eapply FlushPageLocked_pins.
Qed.

Lemma MaybeEvictPageFromFrame_pins k fr s b s' :
  MaybeEvictPageFromFrame fr s = Some (b, s') → pins_le k s → pins_le k s'.
Proof.
  unfold MaybeEvictPageFromFrame. intros HM Hk.
  destruct (decide (fr < Z.of_nat (pool_size_ s))); [|done].
  destruct (decide (fr >= 0)); [|done].
  destruct (page_at fr s) as [pg|]; [|done]. cbn [mbind option_bind] in HM.
  destruct (decide (page_id_ pg ≠ INVALID_PAGE_ID)); [|by inversion HM; subst].
  destruct (FlushPageLocked (page_id_ pg) s) as [[b1 s1]|] eqn:HF; [|done].
  cbn [mbind option_bind] in HM.
  destruct (page_at fr s1) as [pg1|]; [|done]. cbn [mbind option_bind] in HM.
  inversion HM; subst. eapply (pins_le_pages _ s1); [done|].
  by eapply FlushPageLocked_pins.
Qed.

Lemma ResetPage_pins k f p c s s' :
  ResetPage f p c s = Some s' → pins_le k s → c ≤ k → pins_le k s'.
Proof.
  unfold ResetPage. intros HR Hk Hc. destruct (page_at f s); [|done].
  cbn [mbind option_bind] in HR. inversion HR; subst.
  by apply pins_le_set_page.
Qed.

(** An operation raises no pin count by more than one, and to no more than
    one a pin count it sets. *)
Lemma step_pins k o s s' :
  0 ≤ k → step o s = Some s' → pins_le k s → pins_le (k + 1) s'.
Proof.
  intros Hk0 Hstep Hk.
  assert (Hk1 : pins_le (k + 1) s) by (eapply pins_le_mono; [done|lia]).
  destruct o as [p| |p d|p|p|]; simpl in Hstep.
  - destruct (FetchPageImpl p s) as [[r s1]|] eqn:HF; [|done].
    inversion Hstep; subst; clear Hstep. unfold FetchPageImpl in HF.
    destruct (page_table_ s !! p) as [f|].
    + destruct (page_at f s) as [pg|] eqn:Hpg; [|done].
      cbn [mbind option_bind] in HF.
      destruct (decide (pin_count_ pg < INT_MAX)); [|done].
      destruct (ClockReplacer.Pin _ _) as [r0|]; [|done].
      cbn [mbind option_bind] in HF. inversion HF; subst.
      eapply (pins_le_pages _ (set_page f _ s)); [done|].
      apply pins_le_set_page; [done|]. simpl.
      pose proof (pins_le_page_at _ _ _ _ Hk Hpg). lia.
    + destruct (GetNextAvailableFrame s) as [[f s1]|] eqn:HG; [|done].
      cbn [mbind option_bind] in HF.
      destruct (GetNextAvailableFrame_frames _ _ _ HG) as (Hp1 & _).
      pose proof (pins_le_pages _ _ _ Hp1 Hk1) as Hk2.
      destruct (decide (f = -1)); [by inversion HF; subst|].
      destruct (MaybeEvictPageFromFrame f s1) as [[b s2]|] eqn:HM; [|done].
      cbn [mbind option_bind] in HF.
      pose proof (MaybeEvictPageFromFrame_pins _ _ _ _ _ HM Hk2) as Hk3.
      destruct (ResetPage f p 1 _) as [s4|] eqn:HR; [|done].
      cbn [mbind option_bind] in HF.
      assert (Hk4 : pins_le (k + 1) s4).
      { eapply ResetPage_pins; [exact HR| |lia]. by eapply pins_le_pages. }
      destruct (page_at f s4) as [pg|] eqn:Hpg; [|done].
      cbn [mbind option_bind] in HF.
      destruct (ClockReplacer.Pin _ _) as [r0|]; [|done].
      cbn [mbind option_bind] in HF. inversion HF; subst.
      eapply (pins_le_pages _ (set_page f _ (disk_call _ s4))); [done|].
      apply pins_le_set_page; [by eapply pins_le_pages|]. simpl.
      by eapply pins_le_page_at.
  - destruct (NewPageImpl s) as [[[r q] s1]|] eqn:HN; [|done].
    inversion Hstep; subst; clear Hstep. unfold NewPageImpl in HN.
    destruct (GetNextAvailableFrame _) as [[f s1]|] eqn:HG; [|done].
    cbn [mbind option_bind] in HN.
    destruct (GetNextAvailableFrame_frames _ _ _ HG) as (Hp1 & _).
    assert (Hk2 : pins_le (k + 1) s1) by (by eapply pins_le_pages).
    destruct (decide (f = -1)); [by inversion HN; subst|].
    destruct (MaybeEvictPageFromFrame f s1) as [[b s2]|] eqn:HM; [|done].
    cbn [mbind option_bind] in HN.
    pose proof (MaybeEvictPageFromFrame_pins _ _ _ _ _ HM Hk2) as Hk3.
    destruct (ResetPage f _ 1 s2) as [s3|] eqn:HR; [|done].
    cbn [mbind option_bind] in HN. inversion HN; subst.
    eapply (pins_le_pages _ s3); [done|].
    eapply ResetPage_pins; [exact HR|done|lia].
  - destruct (UnpinPageImpl p d s) as [[b s1]|] eqn:HU; [|done].
    inversion Hstep; subst; clear Hstep. unfold UnpinPageImpl in HU.
    destruct (page_table_ s !! p) as [f|]; [|by inversion HU; subst].
    destruct (page_at f s) as [pg|] eqn:Hpg; [|done].
    cbn [mbind option_bind] in HU.
    destruct (decide (pin_count_ pg ≤ 0)); [by inversion HU; subst|].
    pose proof (pins_le_page_at _ _ _ _ Hk Hpg).
    destruct (decide (pin_count_ pg - 1 = 0)); inversion HU; subst.
    + eapply (pins_le_pages _ (set_page f _ s)); [done|].
      apply pins_le_set_page; [done|]. simpl. lia.
    + apply pins_le_set_page; [done|]. simpl. lia.
  - unfold FlushPageImpl in Hstep.
    destruct (FlushPageLocked p s) as [[b s1]|] eqn:HF; [|done].
    inversion Hstep; subst. by eapply FlushPageLocked_pins.
  - destruct (DeletePageImpl p s) as [[b s1]|] eqn:HD; [|done].
    inversion Hstep; subst; clear Hstep. unfold DeletePageImpl in HD.
    destruct (page_table_ _ !! p) as [f|]; [|by inversion HD; subst].
    destruct (page_at f _) as [pg|]; [|done]. cbn [mbind option_bind] in HD.
    destruct (bool_decide _); [by inversion HD; subst|].
    destruct (ResetPage f _ _ _) as [s3|] eqn:HR; [|done].
    cbn [mbind option_bind] in HD. inversion HD; subst.
    eapply ResetPage_pins; [exact HR| |unfold ResetPage_default_pin_count; lia].
    by eapply pins_le_pages.
  - by eapply FlushPages_pins.
Qed.

Lemma pins_le_room k o s : pins_le k s → k < INT_MAX → pin_room o s.
Proof.
  intros Hk Hlt. destruct o; try done. intros f pg _ Hpg.
  pose proof (pins_le_page_at _ _ _ _ Hk Hpg). lia.
Qed.

(** A run of [length os] operations is defined when the pin counts leave
    room for that many increments. *)
Lemma run_defined os : ∀ s k,
  inv s → 0 ≤ k → pins_le k s → k + Z.of_nat (length os) ≤ INT_MAX →
  ∃ s', run os s = Some s' ∧ inv s' ∧ pool_size_ s' = pool_size_ s ∧
        pins_le (k + Z.of_nat (length os)) s'.
Proof.
  induction os as [|o os IH]; intros s k Hinv Hk0 Hk Hle; simpl.
  - exists s. split; [done|]. split; [done|]. split; [done|].
    eapply pins_le_mono; [done|]. simpl. lia.
  - simpl in Hle.
    destruct (step_inv o s Hinv) as (s1 & Hstep & Hinv1 & Hps1).
    { eapply pins_le_room; [done|lia]. }
    rewrite Hstep. simpl.
    pose proof (step_pins k o s s1 Hk0 Hstep Hk) as Hk1.
    destruct (IH s1 (k + 1) Hinv1) as (s' & Hrun & Hinv' & Hps' & Hk');
      [lia|done|lia|].
    exists s'. split; [done|]. split; [done|]. split; [congruence|].
    eapply pins_le_mono; [done|]. lia.
Qed.

(** X6.  A sequence of at most [INT_MAX] public operations on a newly
    constructed manager, of a pool whose frame ids fit an [int], is defined:
    no assertion of [MaybeEvictPageFromFrame] fails, [pages_] is never
    indexed out of range, the replacer is never asked to follow an iterator
    into no node, and no pin count overflows.  In the state reached the pool
    has the size it was constructed with, every frame id in the page table,
    in the free list or tracked by the replacer is in [0, pool_size), and
    every pin count is between zero and the number of operations.  (The
    constructor casts each index of [pages_] to [int]; the embedding takes
    the index, which is the value of the cast in a pool of that size.) *)
Theorem operations_defined pool_size os :
  Z.of_nat pool_size ≤ INT_MAX → Z.of_nat (length os) ≤ INT_MAX →
  ∃ s, run os (new pool_size) = Some s ∧
       pool_size_ s = pool_size ∧ length (pages_ s) = pool_size ∧
       (∀ p f, page_table_ s !! p = Some f → 0 ≤ f < Z.of_nat pool_size) ∧
       (∀ f, f ∈ free_list_ s → 0 ≤ f < Z.of_nat pool_size) ∧
       (∀ f, f ∈ ClockReplacer.tracked (replacer_ s) →
             0 ≤ f < Z.of_nat pool_size) ∧
       (∀ pg, pg ∈ pages_ s → 0 ≤ pin_count_ pg ≤ Z.of_nat (length os)).
Proof.
  intros _ Hlen.
  destruct (run_defined os (new pool_size) 0 (new_inv pool_size))
    as (s & Hrun & Hinv & Hps & Hk); [done|apply new_pins_le|lia|].
  change (pool_size_ (new pool_size)) with pool_size in Hps.
  exists s. split; [done|]. split; [done|].
  split; [by rewrite (inv_pages _ Hinv)|].
  split; [intros p f Hl; rewrite <- Hps; exact (inv_table _ Hinv _ _ Hl)|].
  split; [intros f Hf; rewrite <- Hps; exact (inv_free _ Hinv _ Hf)|].
  split; [intros f Hf; rewrite <- Hps; exact (inv_tracked _ Hinv _ Hf)|].
  intros pg Hin. split; [by apply (inv_pin _ Hinv)|]. by apply Hk.
Qed.

Lemma Pin_tracked f s r :
  inv s → ClockReplacer.Pin f (replacer_ s) = Some r →
  ∀ x, x ∈ ClockReplacer.tracked r ↔ x ∈ ClockReplacer.tracked (replacer_ s) ∧ x ≠ f.
Proof.
  intros Hinv HP. unfold ClockReplacer.Pin in HP.
  destruct (RemoveFrame_spec (replacer_ s) f (inv_replacer _ Hinv))
    as (r' & HR & _ & _ & Hs).
  rewrite HP in HR. inversion HR; subst r'. by apply shape_filter_tracked.
Qed.

(** X7.  [FetchPage] of a page that is in the page table, with a pin count
    below [INT_MAX]: the frame the table gives is returned with its pin
    count raised by one, and is no longer tracked by the replacer; the disk
    manager is not called, and the buffer, the dirty bit, the other frames,
    the page table, the free list and what else the replacer tracks are as
    before.  (At [INT_MAX] the increment overflows and the call has no
    defined result.) *)
Theorem FetchPageImpl_hit s p f pg :
  inv s → page_table_ s !! p = Some f → page_at f s = Some pg →
  pin_count_ pg < INT_MAX →
  ∃ s',
    FetchPageImpl p s = Some (Some f, s') ∧
    page_at f s' = Some {| data_ := data_ pg; page_id_ := page_id_ pg;
                           pin_count_ := pin_count_ pg + 1;
                           is_dirty_ := is_dirty_ pg |} ∧
    (∀ f', f' ≠ f → page_at f' s' = page_at f' s) ∧
    disk_manager_ s' = disk_manager_ s ∧
    page_table_ s' = page_table_ s ∧ free_list_ s' = free_list_ s ∧
    (∀ x, x ∈ ClockReplacer.tracked (replacer_ s') ↔
          x ∈ ClockReplacer.tracked (replacer_ s) ∧ x ≠ f).
Proof.
  intros Hinv Hl Hpg Hroom.
  assert (Hf : in_pool s f) by exact (inv_table _ Hinv _ _ Hl).
  destruct (Pin_inv f s Hinv) as (r & Hr & _).
  eexists. unfold FetchPageImpl. rewrite Hl, Hpg.
  cbn [mbind option_bind]. rewrite decide_True by done.
  change (replacer_ (set_page f ?pg' s)) with (replacer_ s). rewrite Hr.
  cbn [mbind option_bind]. split; [done|].
  change (page_at ?x (set_replacer r ?s0)) with (page_at x s0).
  split; [apply page_at_set_page_eq; by exists pg|].
  split; [intros f' Hne; apply page_at_set_page_ne; [apply Hf|done]|].
  do 3 (split; [done|]). by apply Pin_tracked.
Qed.

Lemma set_page_back s f pg pg' :
  page_at f s = Some pg →
  pages_ (set_page f pg (set_page f pg' s)) = pages_ s.
Proof.
  unfold page_at, set_page. case_decide; [|done]. intros Hpg. simpl.
  rewrite list_insert_insert_eq. by apply list_insert_id.
Qed.

(** X8.  A hit and its release cancel: [FetchPage] of a resident page whose
    pin count is below [INT_MAX], followed by [UnpinPage] of it with
    [is_dirty = false], leaves every frame, the page table, the free list
    and the disk manager as they were.  Of the replacer, what it tracks
    among the other frames is as before, and it tracks the frame of the
    page exactly when its pin count is back to zero. *)
Theorem Fetch_Unpin_round_trip s p f pg :
  inv s → page_table_ s !! p = Some f → page_at f s = Some pg →
  pin_count_ pg < INT_MAX →
  ∃ s1 s2,
    FetchPageImpl p s = Some (Some f, s1) ∧
    UnpinPageImpl p false s1 = Some (true, s2) ∧
    pages_ s2 = pages_ s ∧ page_table_ s2 = page_table_ s ∧
    free_list_ s2 = free_list_ s ∧ disk_manager_ s2 = disk_manager_ s ∧
    (∀ x, x ≠ f → x ∈ ClockReplacer.tracked (replacer_ s2) ↔
                  x ∈ ClockReplacer.tracked (replacer_ s)) ∧
    (f ∈ ClockReplacer.tracked (replacer_ s2) ↔ pin_count_ pg = 0).
Proof.
  intros Hinv Hl Hpg Hroom.
  assert (Hf : in_pool s f) by exact (inv_table _ Hinv _ _ Hl).
  destruct (Pin_inv f s Hinv) as (r & Hr & Hinv1).
  pose proof (Pin_tracked f s r Hinv Hr) as Htr.
  pose proof (inv_pin _ Hinv pg (page_at_elem _ _ _ Hpg)) as Hpin.
  assert (Hwfr : ClockReplacer.wf r) by apply Hinv1.
  set (pg1 := {| data_ := data_ pg; page_id_ := page_id_ pg;
                 pin_count_ := pin_count_ pg + 1; is_dirty_ := is_dirty_ pg |}).
  set (s1 := set_replacer r (set_page f pg1 s)).
  assert (HF : FetchPageImpl p s = Some (Some f, s1)).
  { unfold FetchPageImpl. rewrite Hl, Hpg. cbn [mbind option_bind].
    rewrite decide_True by done.
    change (replacer_ (set_page f ?pg' s)) with (replacer_ s). by rewrite Hr. }
  assert (Hpg1 : page_at f s1 = Some pg1).
  { change (page_at f s1) with (page_at f (set_page f pg1 s)).
    apply page_at_set_page_eq. by exists pg. }
  assert (Hback : {| data_ := data_ pg1; page_id_ := page_id_ pg1;
                     pin_count_ := pin_count_ pg1 - 1;
                     is_dirty_ := is_dirty_ pg1 || false |} = pg).
  { destruct pg as [d i c b]. simpl. f_equal; [lia|apply orb_false_r]. }
  assert (HU : UnpinPageImpl p false s1
               = Some (true, if decide (pin_count_ pg = 0)
                             then set_replacer (ClockReplacer.Unpin f r)
                                    (set_page f pg s1)
                             else set_page f pg s1)).
  { unfold UnpinPageImpl. change (page_table_ s1) with (page_table_ s).
    rewrite Hl, Hpg1. cbn [mbind option_bind].
    rewrite decide_False by (simpl; lia). rewrite Hback.
    destruct (decide (pin_count_ pg = 0)).
    - rewrite decide_True by (simpl; lia). done.
    - rewrite decide_False by (simpl; lia). done. }
  assert (Hpages : pages_ (set_page f pg s1) = pages_ s).
  { change (pages_ (set_page f pg s1))
      with (pages_ (set_page f pg (set_page f pg1 s))). by apply set_page_back. }
  exists s1. eexists. split; [done|]. split; [exact HU|].
  destruct (decide (pin_count_ pg = 0)) as [Hz|Hnz].
  - split; [exact Hpages|]. do 3 (split; [done|]). split.
    + intros x Hx. simpl. rewrite (Unpin_tracked r f x Hwfr), Htr. tauto.
    + simpl. rewrite (Unpin_tracked r f f Hwfr). tauto.
  - split; [exact Hpages|]. do 3 (split; [done|]). split.
    + intros x Hx. simpl. rewrite Htr. tauto.
    + simpl. rewrite Htr. tauto.
Qed.

(** X9.  A second [FlushPage] of the same page changes nothing: it returns
    what the first returned and leaves the state the first left, so no
    second [WritePage] is issued. *)
Theorem FlushPageImpl_idempotent s p :
  inv s →
  ∃ b s1, FlushPageImpl p s = Some (b, s1) ∧ FlushPageImpl p s1 = Some (b, s1).
Proof.
  intros Hinv. unfold FlushPageImpl, FlushPageLocked.
  destruct (page_table_ s !! p) as [f|] eqn:Hl.
  2:{ exists false, s. by rewrite Hl. }
  destruct (page_at_in_pool s f Hinv) as [pg Hpg]; [exact (inv_table _ Hinv _ _ Hl)|].
  rewrite Hpg. cbn [mbind option_bind].
  destruct (is_dirty_ pg) eqn:Hd; cbn [negb].
  - eexists _, _. split; [done|].
    change (page_table_ (set_page f ?pg' (disk_call ?c s))) with (page_table_ s).
    rewrite Hl. rewrite page_at_set_page_eq by (by exists pg). done.
  - exists true, s. rewrite Hl, Hpg. cbn [mbind option_bind]. by rewrite Hd.
Qed.


Lemma FlushPageLocked_cleans p s b s' f :
  FlushPageLocked p s = Some (b, s') → page_table_ s !! p = Some f →
  ∃ pg', page_at f s' = Some pg' ∧ is_dirty_ pg' = false.
Proof.
  unfold FlushPageLocked. intros HF Hl. rewrite Hl in HF.
  destruct (page_at f s) as [pg|] eqn:Hpg; [|done]. cbn [mbind option_bind] in HF.
  destruct (is_dirty_ pg) eqn:Hd; cbn [negb] in HF; inversion HF; subst; clear HF.
  - eexists. split; [apply page_at_set_page_eq; by exists pg|done].
  - by exists pg.
Qed.

Lemma FlushPages_cleans ps : ∀ s s' p f,
  FlushPages ps s = Some s' → p ∈ ps → page_table_ s !! p = Some f →
  ∃ pg', page_at f s' = Some pg' ∧ is_dirty_ pg' = false.
Proof.
  induction ps as [|q ps IH]; intros s s' p f HF Hin Hl.
  - by apply elem_of_nil in Hin.
  - simpl in HF. destruct (FlushPageLocked q s) as [[b s1]|] eqn:HFl; [|done].
    cbn [mbind option_bind] in HF.
    destruct (decide (p = q)) as [->|Hne].
    + destruct (FlushPageLocked_cleans _ _ _ _ _ HFl Hl) as (pg1 & Hpg1 & Hd1).
      destruct (FlushPages_frame _ _ _ _ _ HF Hpg1) as (_ & [Hk|(_ & Hc & _)]).
      * by exists pg1.
      * by exists (clean pg1).
    + apply elem_of_cons in Hin as [?|Hin]; [done|].
      apply (IH s1 s' p f HF Hin).
      unfold FlushPageLocked in HFl.
      destruct (page_table_ s !! q) as [fq|]; [|by inversion HFl; subst].
      destruct (page_at fq s) as [pgq|]; [|done]. cbn [mbind option_bind] in HFl.
      destruct (is_dirty_ pgq); cbn [negb] in HFl; by inversion HFl; subst.
Qed.

Lemma FlushPages_tables ps : ∀ s s',
  FlushPages ps s = Some s' →
  page_table_ s' = page_table_ s ∧ free_list_ s' = free_list_ s ∧
  replacer_ s' = replacer_ s ∧ pool_size_ s' = pool_size_ s.
Proof.
  induction ps as [|q ps IH]; intros s s' HF; simpl in HF.
  - by inversion HF.
  - destruct (FlushPageLocked q s) as [[b s1]|] eqn:HFl; [|done].
    cbn [mbind option_bind] in HF. destruct (IH _ _ HF) as (-> & -> & -> & ->).
    unfold FlushPageLocked in HFl.
    destruct (page_table_ s !! q) as [fq|]; [|by inversion HFl; subst].
    destruct (page_at fq s) as [pgq|]; [|done]. cbn [mbind option_bind] in HFl.
    destruct (is_dirty_ pgq); cbn [negb] in HFl; by inversion HFl; subst.
Qed.

(** X10.  After [FlushAllPages] the frame of every page in the page table
    is clean.  Each frame is as before or as before with its dirty bit
    cleared, and the page table, the free list and the replacer are as
    before: nothing is evicted or unpinned. *)
Theorem FlushAllPagesImpl_cleans s :
  inv s →
  ∃ s', FlushAllPagesImpl s = Some s' ∧
        (∀ p f, page_table_ s !! p = Some f →
                ∃ pg', page_at f s' = Some pg' ∧ is_dirty_ pg' = false) ∧
        (∀ f pg, page_at f s = Some pg →
                 page_at f s' = Some pg ∨ page_at f s' = Some (clean pg)) ∧
        page_table_ s' = page_table_ s ∧ free_list_ s' = free_list_ s ∧
        replacer_ s' = replacer_ s.
Proof.
  intros Hinv. unfold FlushAllPagesImpl.
  destruct (FlushPages_inv (map_to_list (page_table_ s)).*1 s Hinv)
    as (s' & HF & _ & _).
  exists s'. split; [done|]. split; [|split].
  - intros p f Hl. apply (FlushPages_cleans _ _ _ p f HF); [|done].
    apply list_elem_of_fmap. exists (p, f). split; [done|].
    by apply elem_of_map_to_list.
  - intros f pg Hpg.
    destruct (FlushPages_frame _ _ _ _ _ HF Hpg) as (_ & [?|(_ & ? & _)]); tauto.
  - by destruct (FlushPages_tables _ _ _ HF) as (? & ? & ? & _).
Qed.

(** X11.  [DeletePage] calls [DeallocatePage] before it looks at the page
    table, so the disk manager is told to deallocate whatever the outcome.
    For a page that is not resident the result is true, for a page that is
    pinned it is false, and in both cases nothing else changes.  The
    replacer is never touched. *)
Theorem DeletePageImpl_deallocates s p :
  inv s →
  ∃ b s', DeletePageImpl p s = Some (b, s') ∧
          disk_manager_ s' = CallDeallocatePage p :: disk_manager_ s ∧
          replacer_ s' = replacer_ s ∧
          match page_table_ s !! p with
          | None => b = true ∧ s' = disk_call (CallDeallocatePage p) s
          | Some f =>
              ∃ pg, page_at f s = Some pg ∧
                    (pin_count_ pg ≠ 0 →
                     b = false ∧ s' = disk_call (CallDeallocatePage p) s)
          end.
Proof.
  intros Hinv. destruct (DeletePageImpl_inv p s Hinv) as (b & s' & HD & _ & _).
  exists b, s'. split; [done|].
  pose proof (DeletePageImpl_replacer _ _ _ _ HD) as Hr.
  unfold DeletePageImpl in HD. cbv zeta in HD.
  change (page_table_ (disk_call ?c s)) with (page_table_ s) in HD.
  destruct (page_table_ s !! p) as [f|] eqn:Hl.
  2:{ inversion HD; subst. done. }
  change (page_at f (disk_call ?c s)) with (page_at f s) in HD.
  destruct (page_at f s) as [pg|] eqn:Hpg; [|done]. cbn [mbind option_bind] in HD.
  case_bool_decide as Hpin.
  - inversion HD; subst. split; [done|]. split; [done|]. by exists pg.
  - unfold ResetPage in HD.
    match type of HD with context [page_at f ?s2] =>
      destruct (page_at f s2) as [pg2|]; [|done] end.
    cbn [mbind option_bind] in HD. inversion HD; subst. split; [done|].
    split; [done|]. exists pg. split; [done|]. intros Hne. by destruct Hpin.
Qed.

Lemma GetNextAvailableFrame_none s f s1 :
  inv s → GetNextAvailableFrame s = Some (f, s1) →
  (f = -1 ↔ free_list_ s = [] ∧ ClockReplacer.tracked (replacer_ s) = []) ∧
  (f = -1 → replacer_ s1 = replacer_ s ∧ free_list_ s1 = free_list_ s).
Proof.
  intros Hinv HG. unfold GetNextAvailableFrame in HG.
  destruct (free_list_ s) as [|front rest] eqn:Hfl.
  - destruct (Victim_wf (replacer_ s) (-1) (inv_replacer _ Hinv))
      as [[Ht HV]|(x & r & HV & _ & Hx & _)]; rewrite HV in HG;
      cbn [mbind option_bind] in HG; inversion HG; subst; clear HG.
    + split; [done|]. done.
    + pose proof (inv_tracked _ Hinv _ Hx) as [Hlo _]. split.
      * split; [lia|]. intros [_ Ht]. rewrite Ht in Hx. by apply elem_of_nil in Hx.
      * lia.
  - inversion HG; subst; clear HG.
    assert (Hin : in_pool s f) by (apply (inv_free _ Hinv); rewrite Hfl; by left).
    destruct Hin as [Hlo _]. split; [|lia]. split; [lia|]. by intros [? _].
Qed.

(** X12.  [FetchPage] of a page that is not in the page table returns null
    exactly when the free list is empty and the replacer tracks no frame;
    it then leaves the state as it was and calls neither the disk manager
    nor the replacer's [Pin]. *)
Theorem FetchPageImpl_null_iff_exhausted s p :
  inv s → page_table_ s !! p = None →
  ∃ r s', FetchPageImpl p s = Some (r, s') ∧
          (r = None ↔
           free_list_ s = [] ∧ ClockReplacer.tracked (replacer_ s) = []) ∧
          (r = None → s' = s).
Proof.
  intros Hinv Hl.
  destruct (FetchPageImpl_inv p s Hinv) as (r & s' & HF & _ & _).
  { intros f pg Hlf. congruence. }
  exists r, s'. split; [done|].
  destruct (GetNextAvailableFrame_inv s Hinv) as (f & s1 & HG & _ & _ & _ & _).
  destruct (GetNextAvailableFrame_none s f s1 Hinv HG) as [Hiff Hsame].
  destruct (decide (f = -1)) as [Hf|Hf].
  - assert (r = None ∧ s' = s1) as [-> ->].
    { unfold FetchPageImpl in HF. rewrite Hl, HG in HF.
      cbn [mbind option_bind] in HF. rewrite decide_True in HF by done.
      by inversion HF. }
    split; [split; [intros _; by apply Hiff|done]|]. intros _.
    destruct (Hsame Hf) as [Hr Hfl].
    destruct (GetNextAvailableFrame_frames _ _ _ HG) as (Hp & Ht & Hd & Hps).
    destruct s, s1. simpl in *. by subst.
  - destruct (FetchPageImpl_miss s p f s1 Hinv Hl HG Hf)
      as (b & s2 & s'' & _ & HF' & _).
    rewrite HF in HF'. inversion HF'; subst r s''.
    split; [|done]. split; [done|]. intros Hex. by apply Hiff in Hex.
Qed.


Lemma page_at_bounds s f pg :
  inv s → page_at f s = Some pg → in_pool s f.
Proof.
  intros Hinv Hpg. unfold page_at in Hpg. case_decide; [|done].
  apply lookup_lt_Some in Hpg. rewrite (inv_pages _ Hinv) in Hpg.
  unfold in_pool. lia.
Qed.

(** [MaybeEvictPageFromFrame] on a frame that holds a page the page table
    maps to it: the page is written out if dirty, and its entry erased. *)
Lemma MaybeEvictPageFromFrame_resident s f pg0 :
  in_pool s f → page_at f s = Some pg0 →
  page_id_ pg0 ≠ INVALID_PAGE_ID → page_table_ s !! page_id_ pg0 = Some f →
  MaybeEvictPageFromFrame f s
  = Some (true,
          set_page_table (delete (page_id_ pg0) (page_table_ s))
            (if is_dirty_ pg0
             then set_page f (clean pg0)
                    (disk_call (CallWritePage (page_id_ pg0) (data_ pg0)) s)
             else s)).
Proof.
  intros [Hlo Hhi] Hpg Hid Hl. unfold MaybeEvictPageFromFrame.
  rewrite decide_True by done. rewrite decide_True by lia.
  rewrite Hpg. cbn [mbind option_bind]. rewrite decide_True by done.
  unfold FlushPageLocked. rewrite Hl, Hpg. cbn [mbind option_bind].
  destruct (is_dirty_ pg0) eqn:Hd; cbn [negb mbind option_bind].
  - rewrite page_at_set_page_eq by (by exists pg0). done.
  - rewrite Hpg. done.
Qed.

(** X13.  [FetchPage] of a page [p] that is not resident, into a frame that
    holds another page: the page held is written to disk first when its
    frame is dirty, with the frame's buffer, and not written when it is
    clean; only then is [p] read.  The evicted page leaves the page table
    and [p] enters it; the frame holds what the disk manager returned for
    [p], pinned once and clean; the other frames are as before. *)
Theorem FetchPageImpl_writes_back_then_reads s p f s1 pg0 :
  inv s → page_table_ s !! p = None →
  GetNextAvailableFrame s = Some (f, s1) →
  page_at f s = Some pg0 → page_id_ pg0 ≠ INVALID_PAGE_ID →
  page_table_ s !! page_id_ pg0 = Some f →
  ∃ s', FetchPageImpl p s = Some (Some f, s') ∧
    let before_read :=
      (if is_dirty_ pg0
       then [CallWritePage (page_id_ pg0) (data_ pg0)] else [])
      ++ disk_manager_ s in
    disk_manager_ s' = CallReadPage p :: before_read ∧
    page_table_ s' = <[p := f]> (delete (page_id_ pg0) (page_table_ s)) ∧
    page_at f s'
    = Some {| data_ := ReadPage_result before_read p; page_id_ := p;
              pin_count_ := 1; is_dirty_ := false |} ∧
    (∀ f', f' ≠ f → page_at f' s' = page_at f' s).
Proof.
  intros Hinv Hl HG Hpg Hid Hl0. cbv zeta.
  destruct (GetNextAvailableFrame_inv s Hinv) as (f' & s1' & HG' & Hinv1 & _).
  rewrite HG in HG'. inversion HG'; subst f' s1'. clear HG'.
  destruct (GetNextAvailableFrame_frames _ _ _ HG) as (Hp1 & Ht1 & Hd1 & Hps1).
  pose proof (page_at_bounds s f pg0 Hinv Hpg) as Hpool.
  assert (Hf : f ≠ -1) by (destruct Hpool; lia).
  assert (Hpool1 : in_pool s1 f) by (unfold in_pool; by rewrite Hps1).
  assert (Hpg1 : page_at f s1 = Some pg0) by (unfold page_at in *; by rewrite Hp1).
  assert (Hat1 : ∀ x, page_at x s1 = page_at x s)
    by (intros x; unfold page_at; by rewrite Hp1).
  destruct (Pin_inv f s1 Hinv1) as (r & Hr & _).
  unfold FetchPageImpl. rewrite Hl, HG. cbn [mbind option_bind].
  rewrite decide_False by done.
  rewrite (MaybeEvictPageFromFrame_resident s1 f pg0) by (done || by rewrite Ht1).
  cbn [mbind option_bind].
  destruct (is_dirty_ pg0) eqn:Hdirty; cbv iota.
  - rewrite ResetPage_eq.
    2:{ do 2 change (page_at f (set_page_table ?t ?s0)) with (page_at f s0).
        rewrite page_at_set_page_eq by (by exists pg0). by eexists. }
    cbn [mbind option_bind].
    rewrite page_at_set_page_eq.
    2:{ do 2 change (page_at f (set_page_table ?t ?s0)) with (page_at f s0).
        rewrite page_at_set_page_eq by (by exists pg0). by eexists. }
    cbn [mbind option_bind].
    match goal with |- context [ClockReplacer.Pin f ?r0] =>
      change r0 with (replacer_ s1) end.
    rewrite Hr. cbn [mbind option_bind].
    eexists. split; [done|]. simpl. rewrite Hd1, Ht1.
    split; [done|]. split; [done|]. split.
    + unfold page_at. simpl. rewrite decide_True by apply Hpool.
      rewrite !list_insert_insert_eq. apply list_lookup_insert_eq.
      rewrite Hp1, (inv_pages _ Hinv). destruct Hpool. lia.
    + intros x Hx. unfold page_at. simpl. case_decide; [|done].
      rewrite !list_insert_insert_eq, Hp1. apply list_lookup_insert_ne.
      destruct Hpool. lia.
  - rewrite ResetPage_eq by (by exists pg0). cbn [mbind option_bind].
    rewrite page_at_set_page_eq by (by exists pg0). cbn [mbind option_bind].
    match goal with |- context [ClockReplacer.Pin f ?r0] =>
      change r0 with (replacer_ s1) end.
    rewrite Hr. cbn [mbind option_bind].
    eexists. split; [done|]. simpl. rewrite Hd1, Ht1.
    split; [done|]. split; [done|]. split.
    + unfold page_at. simpl. rewrite decide_True by apply Hpool.
      rewrite !list_insert_insert_eq. apply list_lookup_insert_eq.
      rewrite Hp1, (inv_pages _ Hinv). destruct Hpool. lia.
    + intros x Hx. unfold page_at. simpl. case_decide; [|done].
      rewrite !list_insert_insert_eq, Hp1. apply list_lookup_insert_ne.
      destruct Hpool. lia.
Qed.

Lemma MaybeEvictPageFromFrame_disk f s b s' :
  MaybeEvictPageFromFrame f s = Some (b, s') →
  disk_manager_ s' = disk_manager_ s ∨
  ∃ p0 d, disk_manager_ s' = CallWritePage p0 d :: disk_manager_ s.
Proof.
  unfold MaybeEvictPageFromFrame. intros HM.
  destruct (decide (f < Z.of_nat (pool_size_ s))); [|done].
  destruct (decide (f >= 0)); [|done].
  destruct (page_at f s) as [pg0|]; [|done]. cbn [mbind option_bind] in HM.
  destruct (decide (page_id_ pg0 ≠ INVALID_PAGE_ID)); [|inversion HM; subst; by left].
  destruct (FlushPageLocked (page_id_ pg0) s) as [[b1 sF]|] eqn:HF; [|done].
  cbn [mbind option_bind] in HM.
  destruct (page_at f sF) as [pg1|]; [|done]. cbn [mbind option_bind] in HM.
  inversion HM; subst; clear HM. simpl.
  unfold FlushPageLocked in HF.
  destruct (page_table_ s !! page_id_ pg0) as [f1|]; [|inversion HF; subst; by left].
  destruct (page_at f1 s) as [pgf|]; [|done]. cbn [mbind option_bind] in HF.
  destruct (is_dirty_ pgf); cbn [negb] in HF; inversion HF; subst; [|by left].
  right. by eexists _, _.
Qed.

(** X14.  [NewPage] when a frame is free or tracked by the replacer: a frame
    is returned, holding the page id [AllocatePage] gave, with a zeroed
    buffer, pinned once and clean, and the page table maps the id to it.
    The disk manager is never asked to read: after [AllocatePage] it
    receives at most one call, a [WritePage]. *)
Theorem NewPageImpl_success s :
  inv s →
  free_list_ s ≠ [] ∨ ClockReplacer.tracked (replacer_ s) ≠ [] →
  ∃ f s',
    NewPageImpl s = Some (Some f, AllocatePage_result (disk_manager_ s), s') ∧
    page_table_ s' !! AllocatePage_result (disk_manager_ s) = Some f ∧
    page_at f s'
    = Some {| data_ := ResetMemory;
              page_id_ := AllocatePage_result (disk_manager_ s);
              pin_count_ := 1; is_dirty_ := false |} ∧
    (disk_manager_ s'
     = CallAllocatePage (AllocatePage_result (disk_manager_ s))
         :: disk_manager_ s ∨
     ∃ p0 d, disk_manager_ s'
             = CallWritePage p0 d
                 :: CallAllocatePage (AllocatePage_result (disk_manager_ s))
                 :: disk_manager_ s).
Proof.
  intros Hinv Hav. set (q := AllocatePage_result (disk_manager_ s)).
  set (s0 := disk_call (CallAllocatePage q) s).
  assert (Hinv0 : inv s0) by (by apply inv_disk_call).
  destruct (GetNextAvailableFrame_inv s0 Hinv0)
    as (f & s1 & HG & Hinv1 & Hps1 & _ & Hpool).
  destruct (GetNextAvailableFrame_none s0 f s1 Hinv0 HG) as [Hiff _].
  assert (Hf : f ≠ -1).
  { intros Hf. apply Hiff in Hf as [Hfl Htr]. destruct Hav; done. }
  destruct Hpool as [?|Hpool]; [done|].
  assert (Hpool1 : in_pool s1 f) by (unfold in_pool; by rewrite Hps1).
  destruct (MaybeEvictPageFromFrame_inv f s1 Hinv1 Hpool1)
    as (b & s2 & HM & Hinv2 & Hps2).
  assert (Hpool2 : in_pool s2 f) by (unfold in_pool; by rewrite Hps2).
  pose proof (page_at_in_pool s2 f Hinv2 Hpool2) as Hs2.
  exists f. eexists. unfold NewPageImpl. fold q. fold s0. rewrite HG.
  cbn [mbind option_bind]. rewrite decide_False by done. rewrite HM.
  cbn [mbind option_bind]. rewrite ResetPage_eq by done.
  cbn [mbind option_bind]. split; [done|].
  split; [apply lookup_insert_eq|].
  split; [by apply (page_at_set_page_eq s2)|].
  destruct (GetNextAvailableFrame_frames _ _ _ HG) as (_ & _ & Hd1 & _).
  simpl. destruct (MaybeEvictPageFromFrame_disk _ _ _ _ HM) as [Hd2|(p0 & d & Hd2)].
  - left. by rewrite Hd2, Hd1.
  - right. exists p0, d. by rewrite Hd2, Hd1.
Qed.

(** X15.  Releasing the last pin makes room: when [UnpinPage] brings the pin
    count of a resident page from one to zero, a [FetchPage] of any page
    that is not resident then gets a frame. *)
Theorem UnpinPage_makes_room s p f pg is_dirty :
  inv s → page_table_ s !! p = Some f → page_at f s = Some pg →
  pin_count_ pg = 1 →
  ∃ s1, UnpinPageImpl p is_dirty s = Some (true, s1) ∧
        ∀ q, page_table_ s1 !! q = None →
             ∃ f' s2, FetchPageImpl q s1 = Some (Some f', s2).
Proof.
  intros Hinv Hl Hpg Hone.
  destruct (UnpinPageImpl_inv p is_dirty s Hinv) as (b & s1 & HU & Hinv1 & _).
  assert (b = true ∧ f ∈ ClockReplacer.tracked (replacer_ s1)) as [-> Htr].
  { unfold UnpinPageImpl in HU. rewrite Hl, Hpg in HU. cbn [mbind option_bind] in HU.
    rewrite decide_False in HU by lia. rewrite decide_True in HU by lia.
    inversion HU; subst. split; [done|]. simpl.
    apply Unpin_tracked; [apply Hinv|]. by left. }
  exists s1. split; [done|]. intros q Hq.
  destruct (GetNextAvailableFrame_inv s1 Hinv1) as (f' & s1' & HG & _).
  destruct (GetNextAvailableFrame_none s1 f' s1' Hinv1 HG) as [Hiff _].
  assert (Hf' : f' ≠ -1).
  { intros Hneg. apply Hiff in Hneg as [_ Hnil]. rewrite Hnil in Htr.
    by apply elem_of_nil in Htr. }
  destruct (FetchPageImpl_miss s1 q f' s1' Hinv1 Hq HG Hf')
    as (b & s2 & s' & _ & HF & _).
  by exists f', s'.
Qed.

End ManagerMore.

Section EvictionSafety.
Import BufferPoolManager.
Context `{Config} `{DiskManager}.
Implicit Types (s : t) (f : Z) (pg : Page) (p : Z).
















End EvictionSafety.

(** * The model at work *)

Section ReplacerScenarios.
Import ClockReplacer.

Lemma Victim_clock_sweep_witness :
  ∃ st, do_calls [CallUnpin 0; CallUnpin 1; CallUnpin 2] (new 3) = Some st ∧
        wf st ∧ (2 * Size st ≤ 6)%nat ∧
        ∃ st', Victim_fuel 6 (-1) st = Some (true, 0, st') ∧
               Size st' = 2%nat ∧
               (frame_list_ st').*2
               = [ {| frame_id := 1; reference_bit := false |};
                   {| frame_id := 2; reference_bit := false |} ] ∧
               (h ← clock_hand_ st'; deref h (frame_list_ st'))
               = Some {| frame_id := 1; reference_bit := false |}.
Proof.
  eexists. split; [reflexivity|].
  match goal with |- wf ?st0 ∧ _ =>
    assert (Hwf : wf st0) by (do 3 apply Unpin_wf; apply new_wf);
    assert (Hle : (2 * Size st0 ≤ 6)%nat) by (vm_compute; lia);
    pose proof (Victim_clock_sweep st0 (-1) 6 Hwf Hle) as Hc
  end.
  split; [exact Hwf|]. split; [exact Hle|].
  destruct Hc as (A & h & fs & B & v & st' & L & R & _ & _ & _ & HV & _ & _ & _
                  & HS & _).
  match type of HV with ?lhs = _ =>
    eassert (HV0 : lhs = Some (true, 0, _)) by (vm_compute; reflexivity)
  end.
  rewrite HV0 in HV. injection HV as Hf Hst. subst st'.
  eexists. split; [exact HV0|]. split; [exact HS|]. split; reflexivity.
Defined.

Lemma Pin_removes_exactly_witness :
  wf (Unpin 1 (Unpin 0 (new 2))) ∧
  ∃ st', Pin 0 (Unpin 1 (Unpin 0 (new 2))) = Some st' ∧ tracked st' = [1].
Proof.
  assert (Hwf : wf (Unpin 1 (Unpin 0 (new 2))))
    by (do 2 apply Unpin_wf; apply new_wf).
  split; [exact Hwf|].
  destruct (Pin_removes_exactly _ 0 Hwf) as (st' & HP & _ & Htr & _).
  exists st'. split; [exact HP|]. rewrite Htr. vm_compute. reflexivity.
Defined.

Lemma Pin_Unpin_round_trip_witness :
  wf (Unpin 0 (new 2)) ∧ frame_map_ (Unpin 0 (new 2)) !! 1 = None ∧
  Pin 1 (Unpin 1 (Unpin 0 (new 2))) = Some (Unpin 0 (new 2)).
Proof.
  assert (Hwf : wf (Unpin 0 (new 2))) by (apply Unpin_wf; apply new_wf).
  assert (Hl : frame_map_ (Unpin 0 (new 2)) !! 1 = None)
    by (vm_compute; reflexivity).
  split; [exact Hwf|]. split; [exact Hl|].
  exact (Pin_Unpin_round_trip _ 1 Hwf Hl).
Defined.

Lemma Victim_fifo_witness :
  NoDup [3; 1; 2] ∧
  ∃ st, do_calls (CallUnpin <$> [3; 1; 2]) (new 3) = Some st ∧
        Victims 3 st = Some ([3; 1; 2], new 3).
Proof.
  assert (Hnd : NoDup [3; 1; 2])
    by (apply (bool_decide_unpack _); vm_compute; exact I).
  split; [exact Hnd|]. exact (Victim_fifo 3 [3; 1; 2] Hnd).
Defined.

End ReplacerScenarios.

Section Scenarios.
Import BufferPoolManager.
#[local] Existing Instance bustub_config.
#[local] Existing Instance counting_disk.

Lemma UnpinPageImpl_cases_witness :
  ∃ s, run [FetchPage 5] (new 1) = Some s ∧ inv s ∧
       ∃ s', UnpinPageImpl 5 true s = Some (true, s') ∧
             0 ∈ ClockReplacer.tracked (replacer_ s').
Proof.
  eexists. split; [vm_compute; reflexivity|].
  match goal with |- inv ?s0 ∧ _ =>
    assert (Hinv : inv s0)
      by (apply reachable_inv; exists 1%nat, [FetchPage 5]; vm_compute; reflexivity);
    pose proof (UnpinPageImpl_cases s0 5 true Hinv) as Hc
  end.
  split; [exact Hinv|].
  vm_compute in Hc. destruct Hc as (pg & Hpg & Hc).
  injection Hpg as <-. vm_compute in Hc.
  destruct Hc as (_ & s' & HU & _ & _ & _ & _ & _ & _ & _ & Htr).
  exists s'. split; [vm_compute; exact HU|exact Htr].
Defined.


Lemma FlushPageImpl_frame_witness :
  ∃ s, run [FetchPage 5; UnpinPage 5 true] (new 1) = Some s ∧ inv s ∧
       ∃ s', FlushPageImpl 5 s = Some (true, s') ∧
             page_table_ s' = page_table_ s ∧
             ∃ d, disk_manager_ s' = CallWritePage 5 d :: disk_manager_ s.
Proof.
  eexists. split; [vm_compute; reflexivity|].
  match goal with |- inv ?s0 ∧ _ =>
    assert (Hinv : inv s0)
      by (apply reachable_inv; exists 1%nat, [FetchPage 5; UnpinPage 5 true];
          vm_compute; reflexivity);
    pose proof (FlushPageImpl_frame s0 5 Hinv) as Hc
  end.
  split; [exact Hinv|].
  destruct Hc as (b & s' & HF & Hb & _ & Hpt & _ & _ & _ & _ & Hdisk).
  destruct b.
  - exists s'. split; [exact HF|]. split; [exact Hpt|].
    vm_compute in Hdisk. destruct Hdisk as (pg & Hpg & Hdisk).
    injection Hpg as <-. eexists. exact Hdisk.
  - exfalso. pose proof (proj1 Hb eq_refl) as Hn. vm_compute in Hn. discriminate Hn.
Defined.

Lemma NewPageImpl_exhausted_witness :
  ∃ s, run [FetchPage 5] (new 1) = Some s ∧ free_list_ s = [] ∧
       ClockReplacer.Victim (-1) (replacer_ s) = Some (false, -1, replacer_ s) ∧
       ∃ s', NewPageImpl s = Some (None, 0, s') ∧
             disk_manager_ s' = CallAllocatePage 0 :: disk_manager_ s ∧
             page_table_ s' = page_table_ s.
Proof.
  eexists. split; [vm_compute; reflexivity|].
  split; [reflexivity|]. split; [reflexivity|].
  match goal with |- ∃ s', NewPageImpl ?s0 = _ ∧ _ =>
    destruct (NewPageImpl_exhausted s0 eq_refl eq_refl)
      as (s' & HN & Hdisk & Hpt & _)
  end.
  exists s'. split; [exact HN|]. split; [exact Hdisk|exact Hpt].
Defined.



Lemma FetchPageImpl_invalid_page_id_witness :
  ∃ s', FetchPageImpl INVALID_PAGE_ID (new 1) = Some (Some 0, s') ∧
        page_table_ s' !! INVALID_PAGE_ID = Some 0 ∧
        ∃ pg, page_at 0 s' = Some pg ∧ page_id_ pg = INVALID_PAGE_ID ∧
              pin_count_ pg = 1.
Proof.
  eapply (proj1 FetchPageImpl_invalid_page_id (new 1) 0).
  - apply new_inv.
  - reflexivity.
  - vm_compute. reflexivity.
  - discriminate.
Defined.

(** Scenario 3 of section 8, on a pool of two frames: page 10 is fetched and
    unpinned dirty, page 20 fetched and unpinned clean; fetching page 30
    makes the clock choose frame 0, and page 10 is written back before page
    30 is read into the frame. *)
Example eviction_writes_back_before_read :
  ∃ s, run [FetchPage 10; UnpinPage 10 true; FetchPage 20;
            UnpinPage 20 false; FetchPage 30] (new 2) = Some s ∧
       page_table_ s !! 30 = Some 0 ∧ page_table_ s !! 20 = Some 1 ∧
       page_table_ s !! 10 = None ∧
       (∃ d, disk_manager_ s
             = [CallReadPage 30; CallWritePage 10 d; CallReadPage 20;
                CallReadPage 10]) ∧
       ∃ pg, page_at 0 s = Some pg ∧ is_dirty_ pg = false ∧ pin_count_ pg = 1.
Proof.
  eexists. split; [vm_compute; reflexivity|].
  do 3 (split; [reflexivity|]). split; [by eexists|].
  eexists. split; [vm_compute; reflexivity|]. done.
Qed.

(** C1 (the code departs from it).  Pool of one frame; [FetchPage(5)],
    [UnpinPage(5, false)], [DeletePage(5)].  [DeletePage] puts frame 0 in
    the free list and does not call [Pin] on the replacer: frame 0 is then
    in the free list and tracked by the replacer at once, and the frame
    invariant of section 3 does not hold. *)
Theorem DeletePage_leaves_frame_tracked :
  ∃ s, run [FetchPage 5; UnpinPage 5 false; DeletePage 5] (new 1) = Some s ∧
       0 ∈ free_list_ s ∧
       0 ∈ ClockReplacer.tracked (replacer_ s) ∧
       ¬ frame_partition s.
Proof.
  eexists. split; [vm_compute; reflexivity|].
  split; [by left|]. split; [by left|].
  intros HP. destruct (HP 0) as (_ & _ & Htr); [by vm_compute|].
  destruct (proj1 Htr) as [[p Hl] _]; [by left|].
  done.
Qed.

(** C2 (the code departs from it).  The same calls followed by [NewPage]:
    [NewPage] takes frame 0 from the free list and pins it, and does not
    call [Pin] on the replacer either.  The free list is now empty, frame 0
    has pin count 1, and [Victim] returns frame 0; the next [NewPage] is
    given that frame. *)
Theorem NewPage_evicts_pinned_frame :
  ∃ s r s',
    run [FetchPage 5; UnpinPage 5 false; DeletePage 5; NewPage] (new 1)
    = Some s ∧
    free_list_ s = [] ∧
    (∃ pg, page_at 0 s = Some pg ∧ pin_count_ pg = 1) ∧
    ClockReplacer.Victim (-1) (replacer_ s) = Some (true, 0, r) ∧
    NewPageImpl s = Some (Some 0, 1, s').
Proof.
  eexists _, _, _. split; [vm_compute; reflexivity|].
  split; [reflexivity|]. split; [eexists; split; [vm_compute; reflexivity|reflexivity]|].
  split; vm_compute; reflexivity.
Qed.

(** C3 (the code departs from it).  Pool of one frame; [FetchPage(5)],
    [UnpinPage(5, false)]: page 5 is resident in frame 0 with pin count 0.
    [DeletePage(5)] performs the delete, frame 0 back in the free list, no
    page table entry, the frame reset, and returns false. *)
Theorem DeletePage_returns_false_on_success :
  ∃ s s',
    run [FetchPage 5; UnpinPage 5 false] (new 1) = Some s ∧
    page_table_ s !! 5 = Some 0 ∧
    (∃ pg, page_at 0 s = Some pg ∧ pin_count_ pg = 0) ∧
    DeletePageImpl 5 s = Some (false, s') ∧
    free_list_ s' = [0] ∧ page_table_ s' !! 5 = None ∧
    page_at 0 s' = Some Page_new.
Proof.
  eexists _, _. split; [vm_compute; reflexivity|].
  split; [reflexivity|]. split; [eexists; split; [vm_compute; reflexivity|reflexivity]|].
  split; [vm_compute; reflexivity|].
  split; [reflexivity|]. split; [reflexivity|]. vm_compute. reflexivity.
Qed.

Lemma FetchPageImpl_hit_witness :
  ∃ s pg, run [FetchPage 5] (new 1) = Some s ∧ inv s ∧
          page_table_ s !! 5 = Some 0 ∧ page_at 0 s = Some pg ∧
          pin_count_ pg < INT_MAX ∧
          ∃ s' pg', FetchPageImpl 5 s = Some (Some 0, s') ∧
                    page_at 0 s' = Some pg' ∧
                    pin_count_ pg' = pin_count_ pg + 1 ∧
                    disk_manager_ s' = disk_manager_ s ∧
                    page_table_ s' = page_table_ s.
Proof.
  assert (∃ s pg, run [FetchPage 5] (new 1) = Some s ∧ inv s ∧
                  page_table_ s !! 5 = Some 0 ∧ page_at 0 s = Some pg ∧
                  pin_count_ pg < INT_MAX)
    as (s & pg & Hrun & Hinv & Hl & Hpg & Hroom).
  { eexists _, _. split; [vm_compute; reflexivity|].
    split; [|repeat (split; [vm_compute; reflexivity|]); vm_compute; reflexivity].
    apply reachable_inv. exists 1%nat, [FetchPage 5]. vm_compute. reflexivity. }
  destruct (FetchPageImpl_hit s 5 0 pg Hinv Hl Hpg Hroom)
    as (s' & HF & Hpg' & _ & Hd & Ht & _).
  exists s, pg. split; [exact Hrun|]. split; [exact Hinv|]. split; [exact Hl|].
  split; [exact Hpg|]. split; [exact Hroom|].
  eexists s', _. split; [exact HF|]. split; [exact Hpg'|]. by split.
Defined.

Lemma Fetch_Unpin_round_trip_witness :
  ∃ s pg, run [FetchPage 5] (new 1) = Some s ∧ inv s ∧
          page_table_ s !! 5 = Some 0 ∧ page_at 0 s = Some pg ∧
          pin_count_ pg < INT_MAX ∧
          ∃ s1 s2, FetchPageImpl 5 s = Some (Some 0, s1) ∧
                   UnpinPageImpl 5 false s1 = Some (true, s2) ∧
                   pages_ s2 = pages_ s.
Proof.
  assert (∃ s pg, run [FetchPage 5] (new 1) = Some s ∧ inv s ∧
                  page_table_ s !! 5 = Some 0 ∧ page_at 0 s = Some pg ∧
                  pin_count_ pg < INT_MAX)
    as (s & pg & Hrun & Hinv & Hl & Hpg & Hroom).
  { eexists _, _. split; [vm_compute; reflexivity|].
    split; [|repeat (split; [vm_compute; reflexivity|]); vm_compute; reflexivity].
    apply reachable_inv. exists 1%nat, [FetchPage 5]. vm_compute. reflexivity. }
  destruct (Fetch_Unpin_round_trip s 5 0 pg Hinv Hl Hpg Hroom)
    as (s1 & s2 & HF & HU & Hp & _).
  exists s, pg. split; [exact Hrun|]. split; [exact Hinv|]. split; [exact Hl|].
  split; [exact Hpg|]. split; [exact Hroom|]. by exists s1, s2.
Defined.

Lemma FlushPageImpl_idempotent_witness :
  ∃ s, run [FetchPage 5; UnpinPage 5 true] (new 1) = Some s ∧ inv s ∧
       ∃ b s1, FlushPageImpl 5 s = Some (b, s1) ∧
               FlushPageImpl 5 s1 = Some (b, s1).
Proof.
  assert (∃ s, run [FetchPage 5; UnpinPage 5 true] (new 1) = Some s ∧ inv s)
    as (s & Hrun & Hinv).
  { eexists. split; [vm_compute; reflexivity|].
    apply reachable_inv. exists 1%nat, [FetchPage 5; UnpinPage 5 true].
    vm_compute. reflexivity. }
  exists s. split; [exact Hrun|]. split; [exact Hinv|].
  exact (FlushPageImpl_idempotent s 5 Hinv).
Defined.

Lemma FlushAllPagesImpl_cleans_witness :
  ∃ s, run [FetchPage 5; UnpinPage 5 true] (new 1) = Some s ∧ inv s ∧
       ∃ s', FlushAllPagesImpl s = Some s' ∧
             (∀ p f, page_table_ s !! p = Some f →
                     ∃ pg', page_at f s' = Some pg' ∧ is_dirty_ pg' = false).
Proof.
  assert (∃ s, run [FetchPage 5; UnpinPage 5 true] (new 1) = Some s ∧ inv s)
    as (s & Hrun & Hinv).
  { eexists. split; [vm_compute; reflexivity|].
    apply reachable_inv. exists 1%nat, [FetchPage 5; UnpinPage 5 true].
    vm_compute. reflexivity. }
  destruct (FlushAllPagesImpl_cleans s Hinv) as (s' & HF & Hc & _).
  exists s. split; [exact Hrun|]. split; [exact Hinv|]. by exists s'.
Defined.

Lemma DeletePageImpl_deallocates_witness :
  ∃ s, run [FetchPage 5] (new 1) = Some s ∧ inv s ∧
       ∃ b s', DeletePageImpl 5 s = Some (b, s') ∧
               disk_manager_ s' = CallDeallocatePage 5 :: disk_manager_ s ∧
               replacer_ s' = replacer_ s.
Proof.
  assert (∃ s, run [FetchPage 5] (new 1) = Some s ∧ inv s)
    as (s & Hrun & Hinv).
  { eexists. split; [vm_compute; reflexivity|].
    apply reachable_inv. exists 1%nat, [FetchPage 5]. vm_compute. reflexivity. }
  destruct (DeletePageImpl_deallocates s 5 Hinv) as (b & s' & HD & Hd & Hr & _).
  exists s. split; [exact Hrun|]. split; [exact Hinv|]. by exists b, s'.
Defined.

Lemma FetchPageImpl_null_iff_exhausted_witness :
  ∃ s, run [FetchPage 5] (new 1) = Some s ∧ inv s ∧
       page_table_ s !! 6 = None ∧
       ∃ r s', FetchPageImpl 6 s = Some (r, s') ∧
               (r = None ↔
                free_list_ s = [] ∧ ClockReplacer.tracked (replacer_ s) = []) ∧
               (r = None → s' = s).
Proof.
  assert (∃ s, run [FetchPage 5] (new 1) = Some s ∧ inv s ∧
               page_table_ s !! 6 = None) as (s & Hrun & Hinv & Hl).
  { eexists. split; [vm_compute; reflexivity|].
    split; [|vm_compute; reflexivity].
    apply reachable_inv. exists 1%nat, [FetchPage 5]. vm_compute. reflexivity. }
  exists s. split; [exact Hrun|]. split; [exact Hinv|]. split; [exact Hl|].
  exact (FetchPageImpl_null_iff_exhausted s 6 Hinv Hl).
Defined.

Lemma FetchPageImpl_writes_back_then_reads_witness :
  ∃ s, run [FetchPage 5; UnpinPage 5 true] (new 1) = Some s ∧ inv s ∧
       page_table_ s !! 6 = None ∧
       ∃ s1 pg0,
         GetNextAvailableFrame s = Some (0, s1) ∧ page_at 0 s = Some pg0 ∧
         page_id_ pg0 ≠ INVALID_PAGE_ID ∧
         page_table_ s !! page_id_ pg0 = Some 0 ∧
         ∃ s', FetchPageImpl 6 s = Some (Some 0, s') ∧
               page_table_ s'
               = <[6 := 0]> (delete (page_id_ pg0) (page_table_ s)).
Proof.
  assert (∃ s s1 pg0,
            run [FetchPage 5; UnpinPage 5 true] (new 1) = Some s ∧ inv s ∧
            page_table_ s !! 6 = None ∧
            GetNextAvailableFrame s = Some (0, s1) ∧ page_at 0 s = Some pg0 ∧
            page_id_ pg0 = 5 ∧ page_table_ s !! page_id_ pg0 = Some 0)
    as (s & s1 & pg0 & Hrun & Hinv & Hl & HG & Hpg & Hid & Hl5).
  { eexists _, _, _. split; [vm_compute; reflexivity|].
    split; [|repeat split; vm_compute; reflexivity].
    apply reachable_inv. exists 1%nat, [FetchPage 5; UnpinPage 5 true].
    vm_compute. reflexivity. }
  assert (Hne : page_id_ pg0 ≠ INVALID_PAGE_ID)
    by (rewrite Hid; intros Hd; discriminate Hd).
  destruct (FetchPageImpl_writes_back_then_reads s 6 0 s1 pg0 Hinv Hl HG Hpg Hne Hl5)
    as (s' & HF & Hrest).
  cbv zeta in Hrest. destruct Hrest as (_ & Ht & _).
  exists s. split; [exact Hrun|]. split; [exact Hinv|]. split; [exact Hl|].
  exists s1, pg0. split; [exact HG|]. split; [exact Hpg|].
  split; [exact Hne|]. split; [exact Hl5|].
  exists s'. split; [exact HF|exact Ht].
Defined.

Lemma NewPageImpl_success_witness :
  inv (new 1) ∧ free_list_ (new 1) ≠ [] ∧
  ∃ f s', NewPageImpl (new 1) = Some (Some f, 0, s') ∧
          page_table_ s' !! 0 = Some f.
Proof.
  assert (Hfl : free_list_ (new 1) ≠ []) by (intros Hd; discriminate Hd).
  split; [apply new_inv|]. split; [exact Hfl|].
  destruct (NewPageImpl_success (new 1) (new_inv 1) (or_introl Hfl))
    as (f & s' & HN & Ht & _).
  by exists f, s'.
Defined.

Lemma UnpinPage_makes_room_witness :
  ∃ s, run [FetchPage 5] (new 1) = Some s ∧ inv s ∧
       page_table_ s !! 5 = Some 0 ∧
       ∃ pg, page_at 0 s = Some pg ∧ pin_count_ pg = 1 ∧
       ∃ s1, UnpinPageImpl 5 false s = Some (true, s1) ∧
             ∀ q, page_table_ s1 !! q = None →
                  ∃ f' s2, FetchPageImpl q s1 = Some (Some f', s2).
Proof.
  assert (∃ s pg, run [FetchPage 5] (new 1) = Some s ∧ inv s ∧
                  page_table_ s !! 5 = Some 0 ∧
                  page_at 0 s = Some pg ∧ pin_count_ pg = 1)
    as (s & pg & Hrun & Hinv & Hl & Hpg & Hone).
  { eexists _, _. split; [vm_compute; reflexivity|].
    split; [|repeat split; vm_compute; reflexivity].
    apply reachable_inv. exists 1%nat, [FetchPage 5]. vm_compute. reflexivity. }
  exists s. split; [exact Hrun|]. split; [exact Hinv|]. split; [exact Hl|].
  exists pg. split; [exact Hpg|]. split; [exact Hone|].
  exact (UnpinPage_makes_room s 5 0 pg false Hinv Hl Hpg Hone).
Defined.


Lemma operations_defined_witness :
  Z.of_nat 2 ≤ INT_MAX ∧
  Z.of_nat (length [FetchPage 5; FetchPage 5; UnpinPage 5 true; NewPage;
                    DeletePage 5; FlushAllPages]) ≤ INT_MAX ∧
  ∃ s, run [FetchPage 5; FetchPage 5; UnpinPage 5 true; NewPage;
            DeletePage 5; FlushAllPages] (new 2) = Some s ∧
       pool_size_ s = 2%nat ∧ length (pages_ s) = 2%nat ∧
       (∀ pg, pg ∈ pages_ s → 0 ≤ pin_count_ pg ≤ 6).
Proof.
  assert (H2 : Z.of_nat 2 ≤ INT_MAX) by (unfold INT_MAX; lia).
  assert (H6 : Z.of_nat (length [FetchPage 5; FetchPage 5; UnpinPage 5 true;
                                 NewPage; DeletePage 5; FlushAllPages])
               ≤ INT_MAX) by (unfold INT_MAX; simpl; lia).
  split; [exact H2|]. split; [exact H6|].
  destruct (operations_defined 2 _ H2 H6) as (s & Hrun & Hps & Hlen & _ & _ & _ & Hpin).
  exists s. split; [exact Hrun|]. split; [exact Hps|]. split; [exact Hlen|].
  exact Hpin.
Defined.

End Scenarios.
